(** * image-to-svg: batch conversion, history store and download guard

    A shallow embedding of [src/lib/types.ts], [src/lib/conversion.ts],
    [src/lib/storage.ts], [src/lib/download.ts], [src/lib/svg-template.ts],
    the selection handlers of the upload component and the start and
    cancel handlers of [src/app/page.tsx], followed by the properties
    proved about them.

    Conventions of the embedding.
    - A JavaScript object that is mutated in place is a record value that
      is threaded through the functions; an array of task objects is a
      list addressed by position.  Where aliasing matters (the history
      record keeps a reference to the live batch) live objects sit in a
      heap indexed by locations.
    - [new Date()] and [Date.now()] read a clock [clock : nat -> Z]: the
      k-th reading of the run returns [clock k]; the state counts the
      readings.  [Math.random().toString(36)] is read the same way from
      [random36].
    - An awaited platform operation (the encoder, the IndexedDB requests,
      the DOM download) is an oracle that fixes its outcome.  The object
      store and its index follow the IndexedDB standard: [put] keeps a
      structured clone under the primary key, and a cursor on an index
      visits the records by index key, then by primary key.
    - The progress callbacks a caller passes are observers: they are
      recorded in a log and do not throw.
    - A string is the sequence of the bytes of its UTF-8 encoding.
      Searching for an ASCII character and cutting at its position give
      the same text as on the UTF-16 code units of the source; where the
      source reads the [length] of a string the code units are counted.
    - Numbers are doubles.  Sizes, lengths, timestamps and progress
      values are integers, which a double holds exactly up to 2^53.
      Where the code divides and multiplies, a finite double is given by
      its exact value, a rational, and the operation rounds the exact
      result to the nearest value with a 53-bit significand, a tie going
      to the even significand.  The exponent is left unbounded: the
      quotients and products of array lengths (below 2^32) stay far from
      the overflow and subnormal ranges of binary64. *)

From Stdlib Require Import ZArith QArith Qround Qpower String Ascii List Lia Lqa.
From Stdlib Require DecimalString.
From stdpp Require Import base list gmap strings sorting.

Local Open Scope Z_scope.
Local Open Scope string_scope.

(** ** types.ts *)

Inductive ConversionStatus := PENDING | PROCESSING | COMPLETED | FAILED.

#[global] Instance ConversionStatus_eq_dec : EqDecision ConversionStatus.
Proof. solve_decision. Defined.

Inductive ErrorType :=
  | FILE_READ_ERROR | IMAGE_LOAD_ERROR | CONVERSION_ERROR
  | STORAGE_ERROR | DOWNLOAD_ERROR.

#[global] Instance ErrorType_eq_dec : EqDecision ErrorType.
Proof. solve_decision. Defined.

(** [class ConversionError extends Error]; the untyped [details] payload
    is left out. *)
Record ConversionError := { err_type : ErrorType; err_message : string }.

(** What a [throw] can carry: an [Error] instance with its message, or
    any other value. *)
Inductive Thrown := ErrorObject (message : string) | OtherValue.

(** [error instanceof Error ? error.message : '转换失败'] *)
Definition thrown_message (e : Thrown) : string :=
  match e with
  | ErrorObject m => m
  | OtherValue => "转换失败"
  end.

(** Outcome of a call that either returns or throws, and of a promise
    that is either fulfilled or rejected. *)
Inductive outcome (E A : Type) := Ok (a : A) | Throw (e : E).
Arguments Ok {E A} a.
Arguments Throw {E A} e.

(** Where whatever is thrown is a [ConversionError]. *)
Abbreviation result := (outcome ConversionError).

(** The three fields of a DOM [File] that the code reads. *)
Record File := { file_name : string; file_type : string; file_size : Z }.

#[global] Instance File_eq_dec : EqDecision File.
Proof. solve_decision. Defined.

Module Task.
Record t := mk {
  id : string;
  file : File;
  fileName : string;
  fileSize : Z;
  status : ConversionStatus;
  progress : Z;
  svgContent : option string;
  error : option string;
  createdAt : Z;
  completedAt : option Z
}.

Definition set_status (v : ConversionStatus) (x : t) : t :=
  mk (id x) (file x) (fileName x) (fileSize x) v (progress x)
     (svgContent x) (error x) (createdAt x) (completedAt x).
Definition set_progress (v : Z) (x : t) : t :=
  mk (id x) (file x) (fileName x) (fileSize x) (status x) v
     (svgContent x) (error x) (createdAt x) (completedAt x).
Definition set_svgContent (v : option string) (x : t) : t :=
  mk (id x) (file x) (fileName x) (fileSize x) (status x) (progress x)
     v (error x) (createdAt x) (completedAt x).
Definition set_error (v : option string) (x : t) : t :=
  mk (id x) (file x) (fileName x) (fileSize x) (status x) (progress x)
     (svgContent x) v (createdAt x) (completedAt x).
Definition set_completedAt (v : option Z) (x : t) : t :=
  mk (id x) (file x) (fileName x) (fileSize x) (status x) (progress x)
     (svgContent x) (error x) (createdAt x) v.
End Task.

#[global] Instance Task_eq_dec : EqDecision Task.t.
Proof. solve_decision. Defined.

(** A JavaScript number that holds a count-derived percentage: an
    integer after [Math.round], or one of the two non-finite values a
    quotient of counts can be. *)
Inductive number := Int (z : Z) | Infinity | NaN.

#[global] Instance number_eq_dec : EqDecision number.
Proof. solve_decision. Defined.

Module Batch.
Record t := mk {
  batchId : string;
  tasks : list Task.t;
  totalProgress : number;
  status : ConversionStatus;
  createdAt : Z;
  completedAt : option Z
}.

Definition set_tasks (v : list Task.t) (x : t) : t :=
  mk (batchId x) v (totalProgress x) (status x) (createdAt x) (completedAt x).
Definition set_totalProgress (v : number) (x : t) : t :=
  mk (batchId x) (tasks x) v (status x) (createdAt x) (completedAt x).
Definition set_status (v : ConversionStatus) (x : t) : t :=
  mk (batchId x) (tasks x) (totalProgress x) v (createdAt x) (completedAt x).
Definition set_completedAt (v : option Z) (x : t) : t :=
  mk (batchId x) (tasks x) (totalProgress x) (status x) (createdAt x) v.
End Batch.

#[global] Instance Batch_eq_dec : EqDecision Batch.t.
Proof. solve_decision. Defined.

Record DownloadOptions := {
  dl_fileName : string;
  dl_content : string;
  dl_mimeType : string
}.

(** ** Number helpers *)

(** [floor (log2 x)] for a positive rational [x]: the difference of the
    bit lengths of numerator and denominator, or one less. *)
Definition ilog2 (x : Q) : Z :=
  let d := Z.log2 (Qnum x) - Z.log2 (Z.pos (Qden x)) in
  if Qle_bool (2 ^ d) x then d else d - 1.

(** The integer nearest to [x], a tie going to the even one. *)
Definition round_half_even (x : Q) : Z :=
  let f := Qfloor x in
  match Qcompare (x - inject_Z f) (1 # 2) with
  | Lt => f
  | Gt => f + 1
  | Eq => if Z.even f then f else f + 1
  end.

(** The double nearest to the real number [x] (round to nearest, ties to
    even): the significand [x / 2^e] is rounded to an integer of 53
    bits, where [e] is the exponent of the last place. *)
Definition binary64 (x : Q) : Q :=
  match Qcompare x 0 with
  | Eq => 0
  | Gt => let e := ilog2 x - 52 in
          (inject_Z (round_half_even (x / 2 ^ e)) * 2 ^ e)%Q
  | Lt => let e := ilog2 (- x) - 52 in
          (- (inject_Z (round_half_even (- x / 2 ^ e)) * 2 ^ e))%Q
  end.

(** The double [a / b] of two counts: a finite value, or one of the two
    non-finite values a division by zero gives. *)
Inductive quotient := Ratio (q : Q) | QInfinity | QNaN.

Definition js_div (a b : nat) : quotient :=
  match b, a with
  | O, O => QNaN
  | O, S _ => QInfinity
  | S _, _ => Ratio (binary64 (inject_Z (Z.of_nat a) / inject_Z (Z.of_nat b)))
  end.

Definition js_mul (x : quotient) (k : Z) : quotient :=
  match x with
  | Ratio q => Ratio (binary64 (q * inject_Z k))
  | QInfinity => QInfinity
  | QNaN => QNaN
  end.

(** [Math.round]: the nearest integer, a tie going up.  The result is
    exact: no rounding of an intermediate sum takes place. *)
Definition Math_round (x : quotient) : number :=
  match x with
  | Ratio q => Int (Qfloor (q + (1 # 2)))
  | QInfinity => Infinity
  | QNaN => NaN
  end.

(** ** conversion.ts: status predicates used by the filters *)

Definition is_terminal (s : ConversionStatus) : bool :=
  bool_decide (s = COMPLETED) || bool_decide (s = FAILED).

Definition is_failed (s : ConversionStatus) : bool := bool_decide (s = FAILED).

Definition is_cancellable (s : ConversionStatus) : bool :=
  bool_decide (s = PENDING) || bool_decide (s = PROCESSING).

(** ** conversion.ts: cancelBatchTask *)

(** The body of the [forEach] callback. *)
Definition cancel_task (t : Task.t) : Task.t :=
  if is_cancellable (Task.status t)
  then Task.set_error (Some "任务已取消") (Task.set_status FAILED t)
  else t.

Definition cancelBatchTask (b : Batch.t) : Batch.t :=
  Batch.set_status FAILED (Batch.set_tasks (map cancel_task (Batch.tasks b)) b).

(** ** svg-template.ts: validation and file-name helpers *)

Definition supportedTypes : list string :=
  [ "image/jpeg"; "image/jpg"; "image/png"; "image/gif";
    "image/webp"; "image/bmp"; "image/svg+xml" ].

(** [supportedTypes.includes(file.type)] *)
Definition validateImageFile (f : File) : bool :=
  bool_decide (file_type f ∈ supportedTypes).

(** [fileName.lastIndexOf('.')], scanning from the left and keeping the
    last hit; [None] is the source's [-1]. *)
Fixpoint lastIndexOf_from (c : ascii) (s : string) (i : nat) (acc : option nat)
  : option nat :=
  match s with
  | EmptyString => acc
  | String a s' =>
      lastIndexOf_from c s' (S i) (if Ascii.eqb a c then Some i else acc)
  end.

Definition lastIndexOf (c : ascii) (s : string) : option nat :=
  lastIndexOf_from c s 0 None.

Definition getFileNameWithoutExtension (fileName : string) : string :=
  match lastIndexOf "."%char fileName with
  | None => fileName
  | Some lastDotIndex => substring 0 lastDotIndex fileName
  end.

Definition generateSvgFileName (originalFileName : string) : string :=
  getFileNameWithoutExtension originalFileName ++ ".svg".

(** ** The upload component: validateFiles *)

Definition maxSize : Z := 10 * 1024 * 1024.

Definition dquote : string := String "034"%char EmptyString.

(** One round of the [forEach] body: the outcome for a single file. *)
Definition validateFile (f : File) : string + File :=
  if negb (validateImageFile f)
  then inl (dquote ++ file_name f ++ dquote ++ " 不是支持的图片格式")
  else if file_size f >? maxSize
  then inl (dquote ++ file_name f ++ dquote ++ " 文件过大，请选择小于10MB的文件")
  else inr f.

(** [validateFiles(files)] returns [{ validFiles, errors }], both in the
    order of [files]. *)
Fixpoint validateFiles (files : list File) : list File * list string :=
  match files with
  | [] => ([], [])
  | f :: rest =>
      let '(validFiles, errors) := validateFiles rest in
      match validateFile f with
      | inl e => (validFiles, e :: errors)
      | inr v => (v :: validFiles, errors)
      end
  end.

(** ** conversion.ts *)

(** Counters of the readings taken so far from the clock and from the
    random source. *)
Record Sys := { sys_ticks : nat; sys_draws : nat }.

(** What the awaited [convertFileToSvg] settles with. *)
Inductive EncodeOutcome := EncodeOk (svg : string) | EncodeFail (e : Thrown).

(** What [convertSingleTask] settles with. *)
Inductive Settled := Resolved | Rejected (e : Thrown).

(** The decimal digits of an integer, with a minus sign when negative. *)
Definition string_of_Z (z : Z) : string :=
  DecimalString.NilZero.string_of_int (Z.to_int z).

(** *** Number.prototype.toString

    How JavaScript prints a number whose value is an integer, after
    ECMAScript's Number::toString: of the decimal numerals with the
    fewest significant digits that denote the number (that is, whose
    nearest double it is) the one nearest to it is printed, in full
    below 10^21 and in exponent form from there on.  Up to 2^53 every
    integer is its own shortest numeral. *)

(** The multiple of [scale] nearest to [z] among those that round to
    [z]; failing that the same for [scale / 10], and so on. *)
Fixpoint shortest_from (fuel : nat) (scale : Z) (z : Z) : Z :=
  match fuel with
  | O => z
  | S fuel' =>
      let lo := z / scale * scale in
      let hi := lo + scale in
      let ok_lo := Qeq_bool (binary64 (inject_Z lo)) (inject_Z z) in
      let ok_hi := Qeq_bool (binary64 (inject_Z hi)) (inject_Z z) in
      if ok_lo && ok_hi then
        if Z.ltb (z - lo) (hi - z) then lo
        else if Z.ltb (hi - z) (z - lo) then hi
        else if Z.even (z / scale) then lo else hi
      else if ok_lo then lo
      else if ok_hi then hi
      else shortest_from fuel' (scale / 10) z
  end.

(** The integer whose digits are printed for the double [z >= 0]. *)
Definition shortest (z : Z) : Z :=
  let n := String.length (string_of_Z z) in
  shortest_from n (10 ^ Z.of_nat (pred n)) z.

(** A numeral without its trailing zeros. *)
Fixpoint strip_zeros (s : string) : string :=
  match s with
  | EmptyString => EmptyString
  | String c s' =>
      match strip_zeros s' with
      | EmptyString => if Ascii.eqb c "0" then EmptyString else String c EmptyString
      | r => String c r
      end
  end.

(** [d.ddde+x] for the numeral [digits] of an integer. *)
Definition exponent_form (digits : string) : string :=
  let e := string_of_Z (Z.of_nat (pred (String.length digits))) in
  match strip_zeros digits with
  | String d EmptyString => String d ("e+" ++ e)
  | String d rest => String d ("." ++ rest ++ "e+" ++ e)
  | EmptyString => digits
  end.

Definition print_digits (v : Z) : string :=
  if Z.ltb v (10 ^ 21) then string_of_Z v else exponent_form (string_of_Z v).

(** [z.toString()], and [`${z}`], for a number whose value is the
    integer [z]. *)
Definition Number_toString (z : Z) : string :=
  if Z.ltb z 0 then "-" ++ print_digits (shortest (- z))
  else print_digits (shortest z).

Section Conversion.

(** The k-th reading of the clock, in milliseconds. *)
Variable clock : nat -> Z.
(** The k-th [Math.random().toString(36)]. *)
Variable random36 : nat -> string.

(** [`${Date.now()}-${Math.random().toString(36).substr(2, 9)}`] *)
Definition generateId (s : Sys) : string * Sys :=
  (Number_toString (clock (sys_ticks s)) ++ "-" ++
     substring 2 9 (random36 (sys_draws s)),
   {| sys_ticks := S (sys_ticks s); sys_draws := S (sys_draws s) |}).

Definition createTask (f : File) (s : Sys) : result Task.t * Sys :=
  if negb (validateImageFile f)
  then (Throw {| err_type := FILE_READ_ERROR;
                 err_message := "不支持的文件格式: " ++ file_type f |}, s)
  else
    let '(i, s1) := generateId s in
    (Ok (Task.mk i f (getFileNameWithoutExtension (file_name f))
           (file_size f) PENDING 0 None None (clock (sys_ticks s1)) None),
     {| sys_ticks := S (sys_ticks s1); sys_draws := sys_draws s1 |}).

(** [files.map(file => this.createTask(file))]: the first throw aborts
    the map. *)
Fixpoint createTasks (files : list File) (s : Sys)
  : result (list Task.t) * Sys :=
  match files with
  | [] => (Ok [], s)
  | f :: rest =>
      match createTask f s with
      | (Throw e, s1) => (Throw e, s1)
      | (Ok t, s1) =>
          match createTasks rest s1 with
          | (Throw e, s2) => (Throw e, s2)
          | (Ok ts, s2) => (Ok (t :: ts), s2)
          end
      end
  end.

Definition createBatchTask (files : list File) (s : Sys)
  : result Batch.t * Sys :=
  match createTasks files s with
  | (Throw e, s1) => (Throw e, s1)
  | (Ok ts, s1) =>
      let '(i, s2) := generateId s1 in
      (Ok (Batch.mk i ts (Int 0) PENDING (clock (sys_ticks s2)) None),
       {| sys_ticks := S (sys_ticks s2); sys_draws := sys_draws s2 |})
  end.

(** *** convertSingleTask

    The function has one suspension point, the awaited encoder call.
    [convertSingleTask_start] is the part that runs when the function
    is called, [convertSingleTask_resume] the part that runs when the
    encoder has settled.  The task object is reached through
    [task_upd]; [onProgress] is the callback applied to the task (it
    reads the task from the state); [newDate] reads the clock. *)
Section SingleTask.
Context {S : Type}.
Variable task_upd : (Task.t -> Task.t) -> S -> S.
Variable onProgress : S -> S.
Variable newDate : S -> Z * S.

Definition updateProgress (p : Z) (s : S) : S :=
  onProgress (task_upd (Task.set_progress (Z.min p 100)) s).

Definition convertSingleTask_start (s : S) : S :=
  let s := task_upd (Task.set_status PROCESSING) s in
  let s := task_upd (Task.set_progress 0) s in
  let s := onProgress s in
  updateProgress 20 s.

Definition convertSingleTask_resume (o : EncodeOutcome) (s : S)
  : Settled * S :=
  match o with
  | EncodeOk svgContent =>
      let s := updateProgress 80 s in
      let s := task_upd (Task.set_svgContent (Some svgContent)) s in
      let s := task_upd (Task.set_status COMPLETED) s in
      let s := task_upd (Task.set_progress 100) s in
      let '(d, s) := newDate s in
      let s := task_upd (Task.set_completedAt (Some d)) s in
      let s := updateProgress 100 s in
      let s := onProgress s in
      (Resolved, s)
  | EncodeFail e =>
      let s := task_upd (Task.set_status FAILED) s in
      let s := task_upd (Task.set_error (Some (thrown_message e))) s in
      let s := onProgress s in
      (Rejected e, s)
  end.
End SingleTask.

(** A task converted on its own, with no callback: the state is the
    task and the count of clock readings.  [cancelled] tells whether
    [cancelBatchTask] runs on the batch of the task while the call is
    suspended on the encoder. *)
Definition lone_upd (f : Task.t -> Task.t) (s : Task.t * nat) : Task.t * nat :=
  (f (fst s), snd s).
Definition lone_newDate (s : Task.t * nat) : Z * (Task.t * nat) :=
  (clock (snd s), (fst s, S (snd s))).

Definition convertSingleTask (cancelled : bool) (o : EncodeOutcome) (t : Task.t)
    (k : nat) : Settled * (Task.t * nat) :=
  let s := convertSingleTask_start lone_upd (fun s => s) (t, k) in
  let s := if cancelled then lone_upd cancel_task s else s in
  convertSingleTask_resume lone_upd (fun s => s) lone_newDate o s.

(** *** convertBatchTask *)

(** The state of one run: the batch object, the count of clock
    readings, and the arguments the two caller callbacks were applied
    to, newest first.  A batch event carries the count of clock
    readings at the moment [updateBatchProgress] was entered.  While the
    run is suspended on the encoder only the run itself writes to the
    batch: the tasks whose calls are in flight settle in any order, and
    no other code (a cancellation) writes in between. *)
Record Run := {
  run_batch : Batch.t;
  run_ticks : nat;
  run_taskLog : list Task.t;
  run_batchLog : list (nat * Batch.t)
}.

Definition run_tasks (r : Run) : list Task.t := Batch.tasks (run_batch r).

Definition upd_batch (f : Batch.t -> Batch.t) (r : Run) : Run :=
  {| run_batch := f (run_batch r); run_ticks := run_ticks r;
     run_taskLog := run_taskLog r; run_batchLog := run_batchLog r |}.

(** The task object at position [i] of [batchTask.tasks]. *)
Definition upd_task (i : nat) (f : Task.t -> Task.t) (r : Run) : Run :=
  upd_batch (fun b => Batch.set_tasks (alter f i (Batch.tasks b)) b) r.

Definition run_newDate (r : Run) : Z * Run :=
  (clock (run_ticks r),
   {| run_batch := run_batch r; run_ticks := S (run_ticks r);
      run_taskLog := run_taskLog r; run_batchLog := run_batchLog r |}).

(** [onTaskProgress?.(updatedTask)] *)
Definition onTaskProgress (i : nat) (r : Run) : Run :=
  match run_tasks r !! i with
  | Some t =>
      {| run_batch := run_batch r; run_ticks := run_ticks r;
         run_taskLog := t :: run_taskLog r; run_batchLog := run_batchLog r |}
  | None => r
  end.

(** [onBatchProgress?.(batchTask)]; [k] is the count of clock readings
    when the enclosing [updateBatchProgress] began. *)
Definition onBatchProgress (k : nat) (r : Run) : Run :=
  {| run_batch := run_batch r; run_ticks := run_ticks r;
     run_taskLog := run_taskLog r;
     run_batchLog := (k, run_batch r) :: run_batchLog r |}.

Definition count_terminal (ts : list Task.t) : nat :=
  length (List.filter (fun t => is_terminal (Task.status t)) ts).

Definition updateBatchProgress (r : Run) : Run :=
  let k := run_ticks r in
  let completedTasks := count_terminal (run_tasks r) in
  let r :=
    upd_batch (Batch.set_totalProgress
      (Math_round (js_mul (js_div completedTasks (length (run_tasks r))) 100))) r in
  let r :=
    if Nat.eqb completedTasks (length (run_tasks r)) then
      let hasFailedTasks :=
        existsb (fun t => is_failed (Task.status t)) (run_tasks r) in
      let r := upd_batch (Batch.set_status
                 (if hasFailedTasks then FAILED else COMPLETED)) r in
      let '(d, r) := run_newDate r in
      upd_batch (Batch.set_completedAt (Some d)) r
    else r in
  onBatchProgress k r.

(** The callback [processTask] hands to [convertSingleTask]. *)
Definition taskCallback (i : nat) (r : Run) : Run :=
  updateBatchProgress (onTaskProgress i r).

(** What the encoder settles with for the task at a position. *)
Variable encoder : nat -> File -> EncodeOutcome.
(** Which of the encoder calls in flight settles next: a position in
    the list of the tasks in flight (taken modulo its length). *)
Variable schedule : list nat -> nat.
(** [navigator.hardwareConcurrency], absent on some platforms. *)
Variable hardwareConcurrency : option nat.

Definition maxWorkers : nat :=
  match hardwareConcurrency with
  | Some (S n) => S n
  | _ => 4%nat
  end.

(** [processTask] up to its suspension. *)
Definition processTask_start (i : nat) (r : Run) : Run :=
  convertSingleTask_start (upd_task i) (taskCallback i) r.

(** [processTask] from the moment the encoder settles; a rejection of
    [convertSingleTask] is caught and logged. *)
Definition processTask_resume (i : nat) (r : Run) : Run :=
  match run_tasks r !! i with
  | Some t =>
      snd (convertSingleTask_resume (upd_task i) (taskCallback i) run_newDate
             (encoder i (Task.file t)) r)
  | None => r
  end.

(** The encoder calls in flight settle one at a time, in the order the
    scheduler picks; [n] bounds the number of picks. *)
Fixpoint settle (n : nat) (inflight : list nat) (r : Run) : Run :=
  match n with
  | O => r
  | S n' =>
      match inflight !! (schedule inflight mod length inflight)%nat with
      | Some i =>
          settle n' (delete (schedule inflight mod length inflight)%nat inflight)
            (processTask_resume i r)
      | None => r
      end
  end.

(** [await Promise.all(batch.map(processTask))] for the tasks at the
    positions [group]. *)
Definition processGroup (group : list nat) (r : Run) : Run :=
  settle (length group) group (foldl (fun r i => processTask_start i r) r group).

(** Positions of [batchTask.tasks.slice(i, i + concurrencyLimit)]. *)
Definition slice_positions (len i concurrencyLimit : nat) : list nat :=
  seq i (Nat.min (i + concurrencyLimit) len - i).

(** The [for] loop over the groups; [None] when [fuel] iterations were
    not enough. *)
Fixpoint groups_loop (fuel : nat) (i concurrencyLimit : nat) (r : Run)
  : option Run :=
  if (i <? length (run_tasks r))%nat then
    match fuel with
    | O => None
    | S fuel' =>
        groups_loop fuel' (i + concurrencyLimit)%nat concurrencyLimit
          (processGroup (slice_positions (length (run_tasks r)) i concurrencyLimit) r)
    end
  else Some r.

Definition convertBatchTask (batchTask : Batch.t) (k : nat) : option Run :=
  let r := {| run_batch := batchTask; run_ticks := k;
              run_taskLog := []; run_batchLog := [] |} in
  let r := upd_batch (Batch.set_status PROCESSING) r in
  let concurrencyLimit := Nat.min maxWorkers (length (run_tasks r)) in
  match groups_loop (length (run_tasks r)) 0 concurrencyLimit r with
  | Some r => Some (updateBatchProgress r)
  | None => None
  end.

End Conversion.

(** ** download.ts *)

Section Download.

(** Whether the Blob-and-anchor sequence of [downloadFile] runs to its
    end on the platform ([true]) or throws ([false]). *)
Variable dom_download : DownloadOptions -> bool.

Definition downloadFile (options : DownloadOptions) : result unit :=
  if dom_download options then Ok ()
  else Throw {| err_type := DOWNLOAD_ERROR; err_message := "文件下载失败" |}.

(** JavaScript truthiness of an optional string: [undefined] and the
    empty string are falsy. *)
Definition truthy (s : option string) : bool :=
  match s with
  | Some (String _ _) => true
  | _ => false
  end.

Definition not_ready : ConversionError :=
  {| err_type := DOWNLOAD_ERROR; err_message := "任务未完成或SVG内容不存在" |}.

Definition downloadTaskSvg (task : Task.t) : result unit :=
  if negb (bool_decide (Task.status task = COMPLETED))
     || negb (truthy (Task.svgContent task))
  then Throw not_ready
  else
    match Task.svgContent task with
    | Some content =>
        downloadFile
          {| dl_fileName := generateSvgFileName (file_name (Task.file task));
             dl_content := content;
             dl_mimeType := "image/svg+xml" |}
    | None => Throw not_ready
    end.

End Download.

(** ** storage.ts *)

(** Address of a live batch object. *)
Definition loc := nat.

Module History.
(** [ConversionHistory], over the representation [B] of its [batch]
    field: a reference ([loc]) for the object the caller builds, a
    batch value for the structured clone the database keeps and hands
    back. *)
Record t (B : Type) := mk { id : string; batch : B; savedAt : Z }.
Arguments mk {B} _ _ _.
Arguments id {B} _.
Arguments batch {B} _.
Arguments savedAt {B} _.
End History.

Module StorageItem.
Record t := mk { id : string; data : History.t Batch.t; timestamp : Z }.
End StorageItem.

(** The live batch objects, the connection field [this.db] of the
    service (non-null or null), the records of the object store
    ['conversion-history'] under their primary key (key path ['id']),
    and the counters of the clock and the random source. *)
Record World := {
  heap : loc -> Batch.t;
  db : bool;
  objectStore : gmap string StorageItem.t;
  sys : Sys
}.

(** How a step that does not succeed fails: the request fires [onerror],
    or a method called inside the promise executor throws, either before
    the store is reached ([indexedDB.open]; [transaction], [objectStore])
    or when the request is made ([put], [get], [openCursor], ...). *)
Inductive Failure :=
  | RequestError
  | TransactionThrows (x : Thrown)
  | RequestThrows (x : Thrown).

(** What the platform does during one call of the service: whether
    [indexedDB.open] succeeds, whether the request on the object store
    succeeds, how the one that does not succeed fails, and what other
    code does to the live objects while the call is suspended on the
    open request. *)
Record Platform := {
  open_ok : bool;
  request_ok : bool;
  failure : Failure;
  meanwhile : (loc -> Batch.t) -> (loc -> Batch.t)
}.

(** What a promise of the service is rejected with: the
    [ConversionError] an [onerror] handler builds, or the exception a
    method threw inside the promise executor, as it is. *)
Inductive Rejection := Typed (e : ConversionError) | Raw (x : Thrown).

Abbreviation promised := (outcome Rejection).

Definition storage_error (m : string) : ConversionError :=
  {| err_type := STORAGE_ERROR; err_message := m |}.

(** The rejection of a call whose step with the [onerror] message [m]
    did not succeed. *)
Definition rejection (p : Platform) (m : string) : Rejection :=
  match failure p with
  | RequestError => Typed (storage_error m)
  | TransactionThrows x | RequestThrows x => Raw x
  end.

(** The structured clone IndexedDB takes of the value given to [put]:
    references are followed and the objects copied. *)
Definition structuredClone (h : loc -> Batch.t) (x : History.t loc)
  : History.t Batch.t :=
  History.mk (History.id x) (h (History.batch x)) (History.savedAt x).

(** Order of a cursor opened on the index ['timestamp'] with direction
    ['prev']: index key descending, and among equal index keys primary
    key descending.  [x] is visited no later than [y]. *)
Definition index_prev (x y : string * StorageItem.t) : Prop :=
  StorageItem.timestamp y.2 < StorageItem.timestamp x.2
  ∨ (StorageItem.timestamp y.2 = StorageItem.timestamp x.2
     ∧ String.leb y.1 x.1 = true).

#[global] Instance index_prev_dec x y : Decision (index_prev x y).
Proof. unfold index_prev. apply _. Defined.

(** The records in the order the cursor of [getAllHistory] visits them. *)
Definition indexScanPrev (store : gmap string StorageItem.t)
  : list (string * StorageItem.t) :=
  merge_sort index_prev (map_to_list store).

Section Storage.

Variable clock : nat -> Z.
Variable random36 : nat -> string.

Definition init (p : Platform) (w : World) : promised unit * World :=
  let w1 := {| heap := meanwhile p (heap w); db := open_ok p;
               objectStore := objectStore w; sys := sys w |} in
  if open_ok p then (Ok (), w1)
  else (Throw (rejection p "无法打开IndexDB数据库"), w1).

(** [if (!this.db) { await this.init(); }] *)
Definition ensure_open (p : Platform) (w : World) : promised unit * World :=
  if db w then (Ok (), w) else init p w.

Definition saveHistory (p : Platform) (history : History.t loc) (w : World)
  : promised unit * World :=
  match ensure_open p w with
  | (Throw e, w1) => (Throw e, w1)
  | (Ok _, w1) =>
      let storageItem :=
        StorageItem.mk (History.id history)
          (structuredClone (heap w1) history)
          (clock (sys_ticks (sys w1))) in
      let s1 := {| sys_ticks := S (sys_ticks (sys w1));
                   sys_draws := sys_draws (sys w1) |} in
      if request_ok p then
        (Ok (),
         {| heap := heap w1; db := db w1;
            objectStore := <[History.id history := storageItem]> (objectStore w1);
            sys := s1 |})
      else
        (Throw (rejection p "保存历史记录失败"),
         {| heap := heap w1; db := db w1;
            objectStore := objectStore w1;
            (* [Date.now()] is read after [transaction] and before [put] *)
            sys := match failure p with
                   | TransactionThrows _ => sys w1
                   | _ => s1
                   end |})
  end.

Definition getAllHistory (p : Platform) (w : World)
  : promised (list (History.t Batch.t)) * World :=
  match ensure_open p w with
  | (Throw e, w1) => (Throw e, w1)
  | (Ok _, w1) =>
      if request_ok p then
        (Ok (map (fun kv => StorageItem.data kv.2)
               (indexScanPrev (objectStore w1))), w1)
      else (Throw (rejection p "获取历史记录失败"), w1)
  end.

Definition getHistoryById (p : Platform) (id : string) (w : World)
  : promised (option (History.t Batch.t)) * World :=
  match ensure_open p w with
  | (Throw e, w1) => (Throw e, w1)
  | (Ok _, w1) =>
      if request_ok p then
        (Ok (StorageItem.data <$> objectStore w1 !! id), w1)
      else (Throw (rejection p "获取指定历史记录失败"), w1)
  end.

(** conversion.ts: saveBatchToHistory; the batch argument is the
    reference to the live object. *)
Definition saveBatchToHistory (p : Platform) (batchTask : loc) (w : World)
  : promised string * World :=
  let '(i, s1) := generateId clock random36 (sys w) in
  let history := History.mk i batchTask (clock (sys_ticks s1)) in
  let w1 := {| heap := heap w; db := db w; objectStore := objectStore w;
               sys := {| sys_ticks := S (sys_ticks s1);
                         sys_draws := sys_draws s1 |} |} in
  match saveHistory p history w1 with
  | (Ok _, w2) => (Ok i, w2)
  | (Throw e, w2) => (Throw e, w2)
  end.

(** A sequence of [saveHistory] calls, each with what the platform
    does during it; the outcomes are returned in call order. *)
Fixpoint saveAll (calls : list (Platform * History.t loc)) (w : World)
  : list (promised unit) * World :=
  match calls with
  | [] => ([], w)
  | (p, h) :: rest =>
      let '(o, w1) := saveHistory p h w in
      let '(os, w2) := saveAll rest w1 in
      (o :: os, w2)
  end.

End Storage.

(** ** conversion.ts: getBatchStatistics *)

Record BatchStatistics := {
  st_total : nat;
  st_completed : nat;
  st_failed : nat;
  st_processing : nat;
  st_pending : nat;
  st_successRate : number
}.

(** [tasks.filter(task => task.status === s).length] *)
Definition count_status (s : ConversionStatus) (ts : list Task.t) : nat :=
  length (List.filter (fun t => bool_decide (Task.status t = s)) ts).

Definition getBatchStatistics (batchTask : Batch.t) : BatchStatistics :=
  let total := length (Batch.tasks batchTask) in
  let completed := count_status COMPLETED (Batch.tasks batchTask) in
  {| st_total := total;
     st_completed := completed;
     st_failed := count_status FAILED (Batch.tasks batchTask);
     st_processing := count_status PROCESSING (Batch.tasks batchTask);
     st_pending := count_status PENDING (Batch.tasks batchTask);
     st_successRate :=
       if (0 <? total)%nat then Math_round (js_mul (js_div completed total) 100)
       else Int 0 |}.

(** ** storage.ts: deleteHistory, clearAllHistory, getStorageInfo *)

Definition with_store (m : gmap string StorageItem.t) (w : World) : World :=
  {| heap := heap w; db := db w; objectStore := m; sys := sys w |}.

Definition deleteHistory (p : Platform) (id : string) (w : World)
  : promised unit * World :=
  match ensure_open p w with
  | (Throw e, w1) => (Throw e, w1)
  | (Ok _, w1) =>
      if request_ok p then (Ok (), with_store (delete id (objectStore w1)) w1)
      else (Throw (rejection p "删除历史记录失败"), w1)
  end.

Definition clearAllHistory (p : Platform) (w : World) : promised unit * World :=
  match ensure_open p w with
  | (Throw e, w1) => (Throw e, w1)
  | (Ok _, w1) =>
      if request_ok p then (Ok (), with_store ∅ w1)
      else (Throw (rejection p "清空历史记录失败"), w1)
  end.

Record StorageInfo := { info_count : nat; info_estimatedSize : Z }.

Definition getStorageInfo (p : Platform) (w : World)
  : promised StorageInfo * World :=
  match ensure_open p w with
  | (Throw e, w1) => (Throw e, w1)
  | (Ok _, w1) =>
      if request_ok p then
        let count := size (objectStore w1) in
        (Ok {| info_count := count;
               info_estimatedSize := Z.of_nat count * 50 * 1024 |}, w1)
      else (Throw (rejection p "获取存储信息失败"), w1)
  end.

(** ** download.ts: downloadBatchSvg, previewSvg, getBatchDownloadInfo *)

(** The filter the batch functions apply:
    [task.status === COMPLETED && task.svgContent]. *)
Definition deliverable (task : Task.t) : bool :=
  bool_decide (Task.status task = COMPLETED) && truthy (Task.svgContent task).

Definition nothing_to_download : ConversionError :=
  {| err_type := DOWNLOAD_ERROR;
     err_message := "没有已完成的转换任务可供下载" |}.

(** One call of [downloadTaskSvg] made by [downloadBatchSvg]: the delay
    of its timer in milliseconds (0 for the direct call), the task, and
    what the call did. *)
Record Delivery := {
  dv_delay : nat;
  dv_task : Task.t;
  dv_outcome : result unit
}.

Record DownloadInfo := {
  availableFiles : nat;
  totalFiles : nat;
  estimatedSize : nat;
  canDownload : bool
}.

(** The [length] of a JavaScript string, in UTF-16 code units, from its
    UTF-8 bytes: a byte that begins a character of up to three bytes
    counts for one unit, a byte that begins a character of four bytes
    for two (a surrogate pair), a continuation byte for none. *)
Fixpoint utf16_length (s : string) : nat :=
  match s with
  | EmptyString => 0%nat
  | String c s' =>
      let b := nat_of_ascii c in
      ((if (b <? 128)%nat then 1
        else if (b <? 192)%nat then 0
        else if (b <? 240)%nat then 1 else 2) + utf16_length s')%nat
  end.

(** [task.svgContent?.length || 0] *)
Definition content_length (task : Task.t) : nat :=
  match Task.svgContent task with
  | Some c => utf16_length c
  | None => 0%nat
  end.

Definition getBatchDownloadInfo (batchTask : Batch.t) : DownloadInfo :=
  let completedTasks := List.filter deliverable (Batch.tasks batchTask) in
  {| availableFiles := length completedTasks;
     totalFiles := length (Batch.tasks batchTask);
     estimatedSize := foldl (fun sum task => (sum + content_length task)%nat) 0%nat
                        completedTasks;
     canDownload := (0 <? length completedTasks)%nat |}.

Section DownloadBatch.

Variable dom_download : DownloadOptions -> bool.
(** Whether [window.open] hands back a window for a document. *)
Variable window_open : string -> bool.

(** The timers of [downloadBatchSvg] fire in the order of their delays,
    which is the order of the tasks; the call resolves when all have
    fired, whatever each delivery did. *)
Definition downloadBatchSvg (batchTask : Batch.t) : result unit * list Delivery :=
  let completedTasks := List.filter deliverable (Batch.tasks batchTask) in
  match completedTasks with
  | [] => (Throw nothing_to_download, [])
  | [task] =>
      let o := downloadTaskSvg dom_download task in
      (o, [ {| dv_delay := 0; dv_task := task; dv_outcome := o |} ])
  | _ =>
      (Ok (),
       imap (fun index task =>
               {| dv_delay := (index * 200)%nat; dv_task := task;
                  dv_outcome := downloadTaskSvg dom_download task |})
         completedTasks)
  end.

Definition previewSvg (task : Task.t) : result unit :=
  if negb (bool_decide (Task.status task = COMPLETED))
     || negb (truthy (Task.svgContent task))
  then Throw not_ready
  else
    match Task.svgContent task with
    | Some content =>
        if window_open content then Ok ()
        else Throw {| err_type := DOWNLOAD_ERROR;
                      err_message := "无法打开预览窗口，可能被浏览器阻止" |}
    | None => Throw not_ready
    end.

End DownloadBatch.

(** ** svg-template.ts: generateSvg and convertFileToSvg *)

Definition nl : string := String "010"%char EmptyString.

(** The template is written with an apostrophe where the source has a
    double quote. *)
Fixpoint requote (s : string) : string :=
  match s with
  | EmptyString => EmptyString
  | String c s' =>
      String (if Ascii.eqb c "'"%char then "034"%char else c) (requote s')
  end.

Definition SVG_TEMPLATE : string :=
  requote
    ("<?xml version='1.0' encoding='UTF-8' standalone='no'?>" ++ nl ++
     "<!DOCTYPE svg PUBLIC '-//W3C//DTD SVG 1.1//EN' 'http://www.w3.org/Graphics/SVG/1.1/DTD/svg11.dtd'>" ++ nl ++
     "<svg version='1.1' id='Layer_1' xmlns='http://www.w3.org/2000/svg' xmlns:xlink='http://www.w3.org/1999/xlink' x='0px' y='0px' width='{{width}}' height='{{height}}' viewBox='0 0 {{width}} {{height}}' enable-background='new 0 0 {{width}} {{height}}' xml:space='preserve'>" ++ nl ++
     "  <image id='image0' width='{{width}}' height='{{height}}' x='0' y='0' href='{{base64}}' />" ++ nl ++
     "</svg>").

Fixpoint string_drop (n : nat) (s : string) : string :=
  match n, s with
  | O, _ => s
  | S n', String _ s' => string_drop n' s'
  | S _, EmptyString => EmptyString
  end.

(** The text a replacement string stands for at one match of a pattern
    without capture groups: [$$] is a dollar sign, [$&] the match,
    [$`] the text before it, [$'] the text after it; any other
    character, a dollar sign included, stands for itself. *)
Fixpoint getSubstitution (matched before after : string) (repl : string) : string :=
  match repl with
  | EmptyString => EmptyString
  | String c rest =>
      if Ascii.eqb c "$"%char then
        match rest with
        | String d rest' =>
            if Ascii.eqb d "$"%char then
              String "$"%char (getSubstitution matched before after rest')
            else if Ascii.eqb d "&"%char then
              matched ++ getSubstitution matched before after rest'
            else if Ascii.eqb d "`"%char then
              before ++ getSubstitution matched before after rest'
            else if Ascii.eqb d "'"%char then
              after ++ getSubstitution matched before after rest'
            else String c (getSubstitution matched before after rest)
        | EmptyString => String c EmptyString
        end
      else String c (getSubstitution matched before after rest)
  end.

(** [s.replace(/pat/g, repl)] for a pattern that is a literal text: the
    matches are taken from the left and do not overlap.  [before] is the
    text already passed, [skip] the number of characters of the current
    match still to pass. *)
Fixpoint replace_from (pat repl : string) (before : string) (skip : nat)
    (s : string) : string :=
  match s with
  | EmptyString => EmptyString
  | String c s' =>
      match skip with
      | S k => replace_from pat repl (before ++ String c EmptyString) k s'
      | O =>
          if String.prefix pat s then
            getSubstitution pat before (string_drop (String.length pat) s) repl
            ++ replace_from pat repl (before ++ String c EmptyString)
                 (pred (String.length pat)) s'
          else
            String c (replace_from pat repl (before ++ String c EmptyString) 0 s')
      end
  end.

Definition js_replace_all (pat repl s : string) : string :=
  replace_from pat repl EmptyString 0 s.

(** [ImageInfo] and [SvgTemplateParams] have the same three fields.  The
    width and the height are numbers with integer values, as the
    [width] and [height] of an image element are. *)
Record ImageInfo := { img_width : Z; img_height : Z; img_base64 : string }.

Definition generateSvg (params : ImageInfo) : string :=
  let svgContent := SVG_TEMPLATE in
  let svgContent :=
    js_replace_all "{{width}}" (Number_toString (img_width params)) svgContent in
  let svgContent :=
    js_replace_all "{{height}}" (Number_toString (img_height params)) svgContent in
  let svgContent := js_replace_all "{{base64}}" (img_base64 params) svgContent in
  svgContent.

(** What [FileReader.readAsDataURL] ends with. *)
Inductive ReadOutcome := ReadString (dataUrl : string) | ReadOther | ReadError.

Section Encoder.

Variable fileReader : File -> ReadOutcome.
(** The size of the image a data URL decodes to, or [None] when the
    image element reports an error. *)
Variable imageLoad : string -> option (Z * Z).

Definition fileToBase64 (f : File) : result string :=
  match fileReader f with
  | ReadString s => Ok s
  | ReadOther =>
      Throw {| err_type := FILE_READ_ERROR;
               err_message := "文件读取结果不是字符串格式" |}
  | ReadError =>
      Throw {| err_type := FILE_READ_ERROR; err_message := "无法读取文件内容" |}
  end.

Definition getImageInfo (f : File) : result ImageInfo :=
  match fileToBase64 f with
  | Throw e => Throw e
  | Ok base64 =>
      match imageLoad base64 with
      | Some (w, h) =>
          Ok {| img_width := w; img_height := h; img_base64 := base64 |}
      | None =>
          Throw {| err_type := IMAGE_LOAD_ERROR;
                   err_message := "无法加载图片以获取尺寸信息" |}
      end
  end.

Definition convertFileToSvg (f : File) : result string :=
  match getImageInfo f with
  | Throw e => Throw e
  | Ok imageInfo =>
      Ok (generateSvg {| img_width := img_width imageInfo;
                         img_height := img_height imageInfo;
                         img_base64 := img_base64 imageInfo |})
  end.

(** [convertFileToSvg] as the encoder of the conversion service: a
    [ConversionError] is an [Error] whose message is the one given. *)
Definition svgEncoder (i : nat) (f : File) : EncodeOutcome :=
  match convertFileToSvg f with
  | Ok svg => EncodeOk svg
  | Throw e => EncodeFail (ErrorObject (err_message e))
  end.

End Encoder.

(** ** The upload component: handleFilesChange, removeFile, clearAllFiles *)

Record UploadState := { selectedFiles : list File; uploadError : string }.

(** [errors.join(sep)] *)
Fixpoint join (sep : string) (l : list string) : string :=
  match l with
  | [] => EmptyString
  | [x] => x
  | x :: rest => x ++ sep ++ join sep rest
  end.

(** [existingFile.name === newFile.name && existingFile.size === newFile.size] *)
Definition sameFile (existingFile newFile : File) : bool :=
  String.eqb (file_name existingFile) (file_name newFile)
  && Z.eqb (file_size existingFile) (file_size newFile).

(** The new state, and the list handed to [onFilesSelected] when it is
    called. *)
Definition handleFilesChange (files : list File) (st : UploadState)
  : UploadState * option (list File) :=
  let '(validFiles, errors) := validateFiles files in
  let err := if (0 <? length errors)%nat then join "; " errors else EmptyString in
  let newFiles :=
    List.filter
      (fun newFile =>
         negb (existsb (fun existingFile => sameFile existingFile newFile)
                 (selectedFiles st)))
      validFiles in
  if (0 <? length newFiles)%nat then
    let updatedFiles := (selectedFiles st ++ newFiles)%list in
    ({| selectedFiles := updatedFiles; uploadError := err |}, Some updatedFiles)
  else ({| selectedFiles := selectedFiles st; uploadError := err |}, None).

(** [selectedFiles.filter((_, i) => i !== index)] *)
Definition removeFile (index : nat) (st : UploadState)
  : UploadState * option (list File) :=
  let updatedFiles :=
    map snd (List.filter (fun '(i, _) => negb (Nat.eqb i index))
               (imap (fun i f => (i, f)) (selectedFiles st))) in
  ({| selectedFiles := updatedFiles; uploadError := uploadError st |},
   Some updatedFiles).

Definition clearAllFiles (st : UploadState) : UploadState * option (list File) :=
  ({| selectedFiles := []; uploadError := EmptyString |}, Some []).

(** ** page.tsx: handleCancelConversion *)

(** The batch after the handler and the [isConverting] flag of the page. *)
Definition handleCancelConversion (batchTask : Batch.t) (isConverting : bool)
  : Batch.t * bool :=
  if bool_decide (Batch.status batchTask = PROCESSING)
  then (cancelBatchTask batchTask, false)
  else (batchTask, isConverting).

(** ** page.tsx: handleStartConversion *)

(** The live batch at one address is replaced. *)
Definition heap_write (l : loc) (b : Batch.t) (h : loc -> Batch.t) : loc -> Batch.t :=
  fun l' => if Nat.eqb l' l then b else h l'.


Section Page.

Variable clock : nat -> Z.
Variable random36 : nat -> string.
Variable encoder : nat -> File -> EncodeOutcome.
Variable schedule : list nat -> nat.
Variable hardwareConcurrency : option nat.



End Page.

(** * Properties *)

(** ** Vocabulary of the statements *)

(** The four field relations required of a task that has been moved:
    progress is 100 exactly in a terminal status, the result document is
    present exactly when completed, the error exactly when failed, and a
    failed task carries a completion timestamp. *)
Definition task_fields_as_required (t : Task.t) : Prop :=
  (Task.progress t = 100 ↔ is_terminal (Task.status t) = true)
  ∧ (is_Some (Task.svgContent t) ↔ Task.status t = COMPLETED)
  ∧ (is_Some (Task.error t) ↔ Task.status t = FAILED)
  ∧ (Task.status t = FAILED → is_Some (Task.completedAt t)).

(** The field relations the code maintains: progress 100, the result
    document and the completion timestamp go with [COMPLETED] only, the
    error with [FAILED] only. *)
Definition task_consistent (t : Task.t) : Prop :=
  (Task.progress t = 100 ↔ Task.status t = COMPLETED)
  ∧ (is_Some (Task.svgContent t) ↔ Task.status t = COMPLETED)
  ∧ (is_Some (Task.error t) ↔ Task.status t = FAILED)
  ∧ (is_Some (Task.completedAt t) ↔ Task.status t = COMPLETED).

(** The field relations the code maintains also when a cancellation
    interferes: progress 100, the result document and the completion
    timestamp go with [COMPLETED] only, and a failed task carries an
    error. *)
Definition task_coherent (t : Task.t) : Prop :=
  (Task.progress t = 100 ↔ Task.status t = COMPLETED)
  ∧ (is_Some (Task.svgContent t) ↔ Task.status t = COMPLETED)
  ∧ (is_Some (Task.completedAt t) ↔ Task.status t = COMPLETED)
  ∧ (Task.status t = FAILED → is_Some (Task.error t)).

(** The task left by [convertSingleTask]. *)
Definition converted (clock : nat -> Z) (cancelled : bool) (o : EncodeOutcome)
    (t : Task.t) (k : nat) : Task.t :=
  fst (snd (convertSingleTask clock cancelled o t k)).

(** [createTask] with a size ceiling, as a behaviour on one file. *)
Definition createTask_with_ceiling (clock : nat -> Z) (random36 : nat -> string)
    (f : File) (s : Sys) : Prop :=
  (validateImageFile f = true → file_size f <= maxSize →
     ∃ t s', createTask clock random36 f s = (Ok t, s')
             ∧ Task.status t = PENDING ∧ Task.progress t = 0)
  ∧ (validateImageFile f = false →
     ∃ e s', createTask clock random36 f s = (Throw e, s'))
  ∧ (file_size f > maxSize →
     ∃ e s', createTask clock random36 f s = (Throw e, s')).

(** Delivery that fails exactly for a task that is not completed or has
    no result document. *)
Definition delivery_fails_iff_not_succeeded
    (dom_download : DownloadOptions -> bool) (t : Task.t) : Prop :=
  (∃ e, downloadTaskSvg dom_download t = Throw e ∧ err_type e = DOWNLOAD_ERROR)
  ↔ ¬ (Task.status t = COMPLETED ∧ is_Some (Task.svgContent t)).

(** [round(100 × c / n)] for counts [c] and [n > 0]: the integer nearest
    to the exact quotient, a tie going up. *)
Definition round_percent (c n : nat) : Z :=
  (200 * Z.of_nat c + Z.of_nat n) / (2 * Z.of_nat n).

(** What [Math.round((c / n) * 100)] evaluates to for counts [c] and
    [n > 0]. *)
Definition js_percent (c n : nat) : Z :=
  Qfloor (binary64 (binary64 (inject_Z (Z.of_nat c) / inject_Z (Z.of_nat n))
                    * inject_Z 100) + (1 # 2)).

(** What [convertSingleTask] writes to a task before it suspends. *)
Definition start_fields (t : Task.t) : Task.t :=
  Task.set_progress (Z.min 20 100)
    (Task.set_progress 0 (Task.set_status PROCESSING t)).

(** The outcome of the encoder call as the task records it. *)
Definition recorded (o : EncodeOutcome) (t : Task.t) : Prop :=
  match o with
  | EncodeOk svg =>
      Task.status t = COMPLETED ∧ Task.svgContent t = Some svg
      ∧ Task.progress t = 100 ∧ is_Some (Task.completedAt t)
  | EncodeFail e =>
      Task.status t = FAILED ∧ Task.error t = Some (thrown_message e)
  end.

(** The task at position [i] holds the outcome of its encoder call. *)
Definition done_at (encoder : nat -> File -> EncodeOutcome) (i : nat)
    (ts : list Task.t) : Prop :=
  ∃ t, ts !! i = Some t ∧ recorded (encoder i (Task.file t)) t.

(** Two runs hold as many tasks, over the same files. *)
Definition same_shape (r r' : Run) : Prop :=
  length (run_tasks r') = length (run_tasks r)
  ∧ ∀ j, Task.file <$> run_tasks r' !! j = Task.file <$> run_tasks r !! j.

(** From [r] to [r'] only tasks at positions in [D] were written. *)
Definition only_touches (D : list nat) (r r' : Run) : Prop :=
  same_shape r r'
  ∧ ∀ j, j ∉ D → run_tasks r' !! j = run_tasks r !! j.

Definition all_terminal (ts : list Task.t) : bool :=
  forallb (fun t => is_terminal (Task.status t)) ts.

Definition some_failed (ts : list Task.t) : bool :=
  existsb (fun t => is_failed (Task.status t)) ts.

(** Cancellation that leaves a batch of terminal tasks alone: no task
    changes, a completed batch stays completed, and the completion
    timestamp is set if it was not. *)
Definition cancel_is_noop_when_done (b : Batch.t) : Prop :=
  all_terminal (Batch.tasks b) = true →
  Batch.tasks (cancelBatchTask b) = Batch.tasks b
  ∧ (Batch.status b = COMPLETED → Batch.status (cancelBatchTask b) = COMPLETED)
  ∧ is_Some (Batch.completedAt (cancelBatchTask b)).



(** The same relation with the percentage as the code computes it, in
    double precision. *)
Definition in_step (clock : nat -> Z) (ev : nat * Batch.t) : Prop :=
  let ts := Batch.tasks ev.2 in
  Batch.totalProgress ev.2 = Int (js_percent (count_terminal ts) (length ts))
  ∧ (all_terminal ts = true →
     Batch.status ev.2 = (if some_failed ts then FAILED else COMPLETED)
     ∧ Batch.completedAt ev.2 = Some (clock ev.1)).




(** Whether an encoder call succeeded. *)
Definition encoder_ok (o : EncodeOutcome) : bool :=
  match o with EncodeOk _ => true | EncodeFail _ => false end.

(** The number of tasks of a list whose encoder call succeeds. *)
Definition count_encoded (encoder : nat -> File -> EncodeOutcome)
    (ts : list Task.t) : nat :=
  length (List.filter (fun ok : bool => ok)
            (imap (fun i t => encoder_ok (encoder i (Task.file t))) ts)).

(** A file the upload component and [createTask] both accept. *)
Definition acceptable (f : File) : Prop :=
  validateImageFile f = true ∧ file_size f <= maxSize.

(** Whether [handleFilesChange] appends a dropped file to a selection:
    the file is supported, at most 10 MiB, and no selected file has its
    name and size. *)
Definition appended (existing : list File) (f : File) : bool :=
  validateImageFile f && (file_size f <=? maxSize)%Z
  && negb (existsb (fun e => sameFile e f) existing).

Definition cancelled_message : string := "任务已取消".

(** Whether a character occurs in a string. *)
Fixpoint has_char (c : ascii) (s : string) : bool :=
  match s with
  | EmptyString => false
  | String a s' => Ascii.eqb a c || has_char c s'
  end.

(** The document of the template with the three values in place of the
    placeholders. *)
Definition svg_document (width height base64 : string) : string :=
  requote ("<?xml version='1.0' encoding='UTF-8' standalone='no'?>" ++ nl ++
           "<!DOCTYPE svg PUBLIC '-//W3C//DTD SVG 1.1//EN' 'http://www.w3.org/Graphics/SVG/1.1/DTD/svg11.dtd'>" ++ nl ++
           "<svg version='1.1' id='Layer_1' xmlns='http://www.w3.org/2000/svg' xmlns:xlink='http://www.w3.org/1999/xlink' x='0px' y='0px' width='")
  ++ width ++ requote "' height='" ++ height
  ++ requote "' viewBox='0 0 " ++ width ++ " " ++ height
  ++ requote "' enable-background='new 0 0 " ++ width ++ " " ++ height
  ++ requote ("' xml:space='preserve'>" ++ nl ++ "  <image id='image0' width='")
  ++ width ++ requote "' height='" ++ height
  ++ requote "' x='0' y='0' href='" ++ base64
  ++ requote ("' />" ++ nl ++ "</svg>").

(** The number of terminal tasks of a batch handed to the callback. *)
Definition event_count (ev : nat * Batch.t) : nat :=
  count_terminal (Batch.tasks ev.2).

(** The state of a run on a batch of tasks none of which was terminal at
    the start, once the tasks at the positions below [U] have been
    started: the other tasks are not terminal, and the batches handed to
    the callback so far (newest first) hold no more terminal tasks than
    the later ones and than the batch now. *)
Definition advancing (U : nat) (r : Run) : Prop :=
  (∀ j t, (U ≤ j)%nat → run_tasks r !! j = Some t →
          is_terminal (Task.status t) = false)
  ∧ StronglySorted (fun later earlier => (event_count earlier ≤ event_count later)%nat)
      (run_batchLog r)
  ∧ Forall (fun ev => (event_count ev ≤ count_terminal (run_tasks r))%nat)
      (run_batchLog r).

(** The aggregate progress of one batch is no greater than that of
    another. *)
Definition progress_le (b1 b2 : Batch.t) : Prop :=
  ∃ z1 z2, Batch.totalProgress b1 = Int z1 ∧ Batch.totalProgress b2 = Int z2
           ∧ z1 <= z2.

(** ** Sample values *)

Definition png (name : string) (size : Z) : File :=
  {| file_name := name; file_type := "image/png"; file_size := size |}.

Definition clock0 : nat -> Z := fun k => 1700000000000 + Z.of_nat k.
Definition random0 : nat -> string := fun _ => "0.4fzyo82mvyr".
Definition sys0 : Sys := {| sys_ticks := 0; sys_draws := 0 |}.

(** A task as [createTask] returns it. *)
Definition fresh_task : Task.t :=
  Task.mk "1700000000000-4fzyo82mv" (png "cat.png" 2048) "cat" 2048
    PENDING 0 None None 1700000000001 None.

Definition done_task : Task.t :=
  Task.mk "t1" (png "cat.png" 2048) "cat" 2048
    COMPLETED 100 (Some "<svg/>") None 1 (Some 2).

Definition done_batch : Batch.t :=
  Batch.mk "b1" [done_task] (Int 100) COMPLETED 1 (Some 3).

Definition big_png : File := png "poster.png" (maxSize + 1).

Definition blank_task : Task.t :=
  Task.mk "t2" (png "dot.png" 1) "dot" 1 COMPLETED 100 (Some EmptyString) None 1 (Some 2).

(** Three images, of which the encoder rejects the second; two workers;
    the call in flight that was started last settles first. *)
Definition three_tasks : list Task.t :=
  [ Task.mk "a" (png "a.png" 10) "a" 10 PENDING 0 None None 1 None;
    Task.mk "b" (png "b.png" 20) "b" 20 PENDING 0 None None 2 None;
    Task.mk "c" (png "c.png" 30) "c" 30 PENDING 0 None None 3 None ].

Definition three_batch : Batch.t :=
  Batch.mk "batch" three_tasks (Int 0) PENDING 4 None.

Definition encoder0 (i : nat) (f : File) : EncodeOutcome :=
  if Nat.eqb i 1 then EncodeFail (ErrorObject "无法加载图片以获取尺寸信息")
  else EncodeOk ("<svg>" ++ file_name f ++ "</svg>").

Definition schedule0 (inflight : list nat) : nat := pred (length inflight).

Definition empty_batch : Batch.t := Batch.mk "empty" [] (Int 0) PENDING 4 None.



Definition platform_ok : Platform :=
  {| open_ok := true; request_ok := true; failure := RequestError;
     meanwhile := fun h => h |}.

Definition world0 : World :=
  {| heap := fun _ => done_batch; db := false; objectStore := ∅; sys := sys0 |}.


(** Two records saved within the same millisecond. *)
Definition frozen_clock : nat -> Z := fun _ => 1700000000000.

Definition two_saves : list (Platform * History.t loc) :=
  [ (platform_ok, History.mk "1700000000000-zk3m1x9qa" 0%nat 1700000000000);
    (platform_ok, History.mk "1700000000000-b7q0c2d4e" 1%nat 1700000000000) ].

Definition with_heap (h : loc -> Batch.t) (w : World) : World :=
  {| heap := h; db := db w; objectStore := objectStore w; sys := sys w |}.

(** A world whose connection is open and whose live batch at address 0
    is still being converted. *)
Definition world1 : World :=
  {| heap := fun _ => three_batch; db := true; objectStore := ∅; sys := sys0 |}.

(** The store after the two saves. *)
Definition stored_world : World :=
  (saveAll frozen_clock two_saves world0).2.

(** ** Tasks *)

Lemma fresh_task_created :
  createTask clock0 random0 (png "cat.png" 2048) sys0
  = (Ok fresh_task, {| sys_ticks := 2; sys_draws := 1 |}).
Proof. vm_compute. reflexivity. Qed.

Lemma fresh_task_consistent : task_consistent fresh_task.
Proof.
  unfold task_consistent; simpl.
  repeat split; intros H; try discriminate; try lia;
    by apply is_Some_None in H.
Qed.

Lemma is_cancellable_spec s :
  is_cancellable s = true ↔ s = PENDING ∨ s = PROCESSING.
Proof. destruct s; unfold is_cancellable; simpl; intuition congruence. Qed.

Lemma is_terminal_spec s :
  is_terminal s = true ↔ s = COMPLETED ∨ s = FAILED.
Proof. destruct s; unfold is_terminal; simpl; intuition congruence. Qed.

Lemma task_consistent_open t :
  task_consistent t → is_cancellable (Task.status t) = true →
  Task.progress t ≠ 100 ∧ Task.svgContent t = None
  ∧ Task.error t = None ∧ Task.completedAt t = None.
Proof.
  intros (Hp & Hs & He & Hc) Hopen. apply is_cancellable_spec in Hopen.
  assert (Task.status t ≠ COMPLETED ∧ Task.status t ≠ FAILED) as [Hn1 Hn2]
    by (destruct Hopen as [-> | ->]; split; discriminate).
  repeat split.
  - intros E. apply Hn1, Hp, E.
  - apply eq_None_not_Some. intros E. apply Hn1, Hs, E.
  - apply eq_None_not_Some. intros E. apply Hn2, He, E.
  - apply eq_None_not_Some. intros E. apply Hn1, Hc, E.
Qed.

Lemma cancel_task_consistent t : task_consistent t → task_consistent (cancel_task t).
Proof.
  intros Ht. unfold cancel_task.
  destruct (is_cancellable (Task.status t)) eqn:Hopen; [|exact Ht].
  destruct (task_consistent_open t Ht Hopen) as (Hp & Hs & He & Hc).
  unfold task_consistent; simpl. rewrite Hs, Hc.
  repeat split; intros H; try discriminate; try (exfalso; exact (Hp H));
    try (by apply is_Some_None in H); eauto.
Qed.

Lemma cancel_task_coherent t : task_coherent t → task_coherent (cancel_task t).
Proof.
  intros Ht. unfold cancel_task.
  destruct (is_cancellable (Task.status t)) eqn:Hopen; [|exact Ht].
  destruct Ht as (Hp & Hs & Hc & He). apply is_cancellable_spec in Hopen.
  assert (Task.status t ≠ COMPLETED) as Hn by (destruct Hopen as [-> | ->]; discriminate).
  unfold task_coherent; simpl.
  repeat split; intros H; try discriminate; try tauto; eauto.
Qed.

(** What [convertSingleTask] leaves of a task, whatever the task was. *)
Lemma converted_fields clock cancelled o t k :
  match o with
  | EncodeOk svg =>
      converted clock cancelled o t k
      = Task.mk (Task.id t) (Task.file t) (Task.fileName t) (Task.fileSize t)
          COMPLETED 100 (Some svg)
          (if cancelled then Some "任务已取消" else Task.error t)
          (Task.createdAt t) (Some (clock k))
  | EncodeFail e =>
      converted clock cancelled o t k
      = Task.mk (Task.id t) (Task.file t) (Task.fileName t) (Task.fileSize t)
          FAILED 20 (Task.svgContent t) (Some (thrown_message e))
          (Task.createdAt t) (Task.completedAt t)
  end.
Proof. destruct o, cancelled; reflexivity. Qed.

Lemma converted_coherent clock cancelled o t k :
  Task.svgContent t = None → Task.completedAt t = None →
  task_coherent (converted clock cancelled o t k).
Proof.
  intros Hs Hc. pose proof (converted_fields clock cancelled o t k) as H.
  destruct o as [svg | e]; rewrite H; unfold task_coherent; cbn; rewrite ?Hs, ?Hc;
    repeat split; intros H'; try discriminate; try lia; eauto;
    by apply is_Some_None in H'.
Qed.

Lemma converted_consistent clock o t k :
  Task.svgContent t = None → Task.completedAt t = None → Task.error t = None →
  task_consistent (converted clock false o t k).
Proof.
  intros Hs Hc He. pose proof (converted_fields clock false o t k) as H.
  destruct o as [svg | e]; rewrite H; unfold task_consistent; cbn;
    rewrite ?Hs, ?Hc, ?He;
    repeat split; intros H'; try discriminate; try lia; eauto;
    by apply is_Some_None in H'.
Qed.

(** C1, as stated, fails in three ways.  A fresh task whose encoder call
    fails ends [FAILED] with progress 20 and no completion timestamp.  A
    fresh task that is cancelled while its encoder call is pending, and
    whose call then succeeds, ends [COMPLETED] with the error of the
    cancellation.  A completed task that is converted again, the encoder
    failing this time, ends [FAILED] with its old result document. *)
Lemma C1_fields_not_as_required :
  ¬ task_fields_as_required
      (converted clock0 false (EncodeFail (ErrorObject "无法读取文件内容")) fresh_task 2)
  ∧ ¬ task_fields_as_required
        (converted clock0 true (EncodeOk "<svg/>") fresh_task 2)
  ∧ ¬ task_fields_as_required
        (converted clock0 false (EncodeFail (ErrorObject "无法读取文件内容")) done_task 2).
Proof.
  split; [|split].
  - intros (Hp & _). vm_compute in Hp. destruct Hp as [_ Hp].
    specialize (Hp eq_refl). discriminate.
  - intros (_ & _ & He & _). vm_compute in He. destruct He as [He _].
    specialize (He ltac:(by eexists)). discriminate.
  - intros (_ & Hs & _). vm_compute in Hs. destruct Hs as [Hs _].
    specialize (Hs ltac:(by eexists)). discriminate.
Qed.

Lemma created_task_consistent clock random36 f s t s' :
  createTask clock random36 f s = (Ok t, s') →
  task_consistent t ∧ is_cancellable (Task.status t) = true.
Proof.
  unfold createTask. destruct (validateImageFile f); simpl; [|discriminate].
  intros [= <- <-]. unfold task_consistent; simpl.
  repeat split; intros H; try discriminate; try lia;
    by apply is_Some_None in H.
Qed.

(** C1 (amended).  A task as [createTask] returns it is pending with
    consistent fields.  [convertSingleTask] leaves a task, whatever its
    fields were and whether or not [cancelBatchTask] ran while the
    encoder call was pending, [COMPLETED] with progress 100, the
    encoder's document and the completion timestamp when the encoder
    succeeds, and [FAILED] with the error of the failure when it fails;
    the failure path leaves progress at 20 and writes neither the
    document nor the completion timestamp, and the success path does not
    clear the error.  So for a task that had neither a document nor a
    completion timestamp, progress 100, document and completion
    timestamp are present exactly when the status is [COMPLETED], and a
    failed task has an error; if the task had no error either and no
    cancellation interfered, an error is present exactly when the status
    is [FAILED].  [cancelBatchTask] keeps both sets of relations. *)
Theorem C1_moves_keep_task_consistent (clock : nat -> Z) :
  (∀ (random36 : nat -> string) (f : File) (s s' : Sys) (t : Task.t),
     createTask clock random36 f s = (Ok t, s') →
     task_consistent t ∧ is_cancellable (Task.status t) = true)
  ∧ (∀ (t : Task.t) (cancelled : bool) (o : EncodeOutcome) (k : nat),
       let t' := converted clock cancelled o t k in
       match o with
       | EncodeOk svg =>
           Task.status t' = COMPLETED ∧ Task.progress t' = 100
           ∧ Task.svgContent t' = Some svg
           ∧ Task.completedAt t' = Some (clock k)
           ∧ Task.error t' = (if cancelled then Some cancelled_message
                              else Task.error t)
       | EncodeFail e =>
           Task.status t' = FAILED ∧ Task.progress t' = 20
           ∧ Task.svgContent t' = Task.svgContent t
           ∧ Task.completedAt t' = Task.completedAt t
           ∧ Task.error t' = Some (thrown_message e)
       end)
  ∧ (∀ (t : Task.t) (cancelled : bool) (o : EncodeOutcome) (k : nat),
       Task.svgContent t = None → Task.completedAt t = None →
       task_coherent (converted clock cancelled o t k)
       ∧ (Task.error t = None → cancelled = false →
          task_consistent (converted clock cancelled o t k)))
  ∧ (∀ b : Batch.t,
       (Forall task_coherent (Batch.tasks b) →
        Forall task_coherent (Batch.tasks (cancelBatchTask b)))
       ∧ (Forall task_consistent (Batch.tasks b) →
          Forall task_consistent (Batch.tasks (cancelBatchTask b)))).
Proof.
  split; [|split; [|split]].
  - intros random36 f s s' t. apply created_task_consistent.
  - intros t cancelled o k t'. unfold t'.
    pose proof (converted_fields clock cancelled o t k) as H.
    destruct o as [svg | e]; rewrite H; repeat split.
  - intros t cancelled o k Hs Hc. split; [by apply converted_coherent|].
    intros He ->. by apply converted_consistent.
  - intros b. split; intros Hb; simpl;
      (induction Hb as [|t ts Ht _ IH]; simpl; [constructor|]);
      (constructor; [|exact IH]).
    + by apply cancel_task_coherent.
    + by apply cancel_task_consistent.
Qed.

Lemma C1_moves_keep_task_consistent_witness :
  task_consistent fresh_task
  ∧ task_consistent (converted clock0 false (EncodeOk "<svg/>") fresh_task 2)
  ∧ task_coherent (converted clock0 true (EncodeOk "<svg/>") fresh_task 2)
  ∧ task_consistent
      (converted clock0 false (EncodeFail (ErrorObject "无法读取文件内容")) fresh_task 2).
Proof.
  split; [exact fresh_task_consistent|].
  destruct (C1_moves_keep_task_consistent clock0) as (_ & _ & Hk & _).
  split; [|split].
  - exact (proj2 (Hk fresh_task false (EncodeOk "<svg/>") 2%nat eq_refl eq_refl)
             eq_refl eq_refl).
  - exact (proj1 (Hk fresh_task true (EncodeOk "<svg/>") 2%nat eq_refl eq_refl)).
  - exact (proj2 (Hk fresh_task false (EncodeFail (ErrorObject "无法读取文件内容")) 2%nat
                    eq_refl eq_refl) eq_refl eq_refl).
Defined.

(** ** createTask *)

(** C2, as stated, fails: a supported file one byte over 10 MiB is
    accepted by [createTask]. *)
Lemma C2_oversize_file_accepted :
  ¬ createTask_with_ceiling clock0 random0 big_png sys0.
Proof.
  intros (_ & _ & H). destruct H as (e & s' & H); [reflexivity|].
  vm_compute in H. discriminate.
Qed.

Lemma validateFiles_sound files :
  Forall (fun v => validateImageFile v = true ∧ file_size v <= maxSize ∧ v ∈ files)
    (validateFiles files).1.
Proof.
  induction files as [|f rest IH]; simpl; [constructor|].
  destruct (validateFiles rest) as [vs es]. simpl in IH.
  assert (Forall (fun v => validateImageFile v = true ∧ file_size v <= maxSize
                           ∧ v ∈ f :: rest) vs) as IH'.
  { eapply Forall_impl; [exact IH|]. intros v (? & ? & ?).
    repeat split; try done. apply elem_of_cons. by right. }
  unfold validateFile.
  destruct (validateImageFile f) eqn:Hv; simpl; [|exact IH'].
  destruct (file_size f >? maxSize) eqn:Hs; simpl; [exact IH'|].
  constructor; [|exact IH'].
  repeat split; [exact Hv | | apply elem_of_cons; by left].
  rewrite Z.gtb_ltb, Z.ltb_ge in Hs. exact Hs.
Qed.

(** C2 (amended): [createTask] decides on the file kind alone.  For a
    supported kind, whatever the size, it returns a task with the id
    [generateId] produces, status [PENDING] and progress 0; for any other
    kind it throws a [ConversionError] of type [FILE_READ_ERROR] and
    reads neither the clock nor the random source.  The 10 MiB ceiling
    belongs to [validateFiles] of the upload component, which keeps only
    supported files of at most 10 MiB. *)
Theorem C2_createTask_checks_kind_only
    (clock : nat -> Z) (random36 : nat -> string) (f : File) (s : Sys) :
  match createTask clock random36 f s with
  | (Ok t, s') =>
      validateImageFile f = true
      ∧ Task.id t = (generateId clock random36 s).1
      ∧ Task.file t = f ∧ Task.fileSize t = file_size f
      ∧ Task.status t = PENDING ∧ Task.progress t = 0
      ∧ Task.svgContent t = None ∧ Task.error t = None
      ∧ Task.completedAt t = None
  | (Throw e, s') =>
      validateImageFile f = false
      ∧ e = {| err_type := FILE_READ_ERROR;
               err_message := "不支持的文件格式: " ++ file_type f |}
      ∧ s' = s
  end
  ∧ ∀ files : list File,
      Forall (fun v => validateImageFile v = true ∧ file_size v <= maxSize
                       ∧ v ∈ files)
        (validateFiles files).1.
Proof.
  split; [|apply validateFiles_sound].
  unfold createTask. destruct (validateImageFile f); simpl; repeat split.
Qed.

(** ** cancelBatchTask *)

(** C5, as stated, fails: a batch whose only task is completed and whose
    status is [COMPLETED] is turned to [FAILED]. *)
Lemma C5_cancel_flips_completed_batch : ¬ cancel_is_noop_when_done done_batch.
Proof.
  intros H. destruct (H eq_refl) as (_ & Hstatus & _).
  specialize (Hstatus eq_refl). discriminate.
Qed.

Lemma cancel_task_terminal t :
  is_terminal (Task.status t) = true → cancel_task t = t.
Proof.
  intros H. unfold cancel_task.
  apply is_terminal_spec in H. by destruct H as [-> | ->].
Qed.

Lemma cancel_task_idem t : cancel_task (cancel_task t) = cancel_task t.
Proof.
  unfold cancel_task.
  destruct (is_cancellable (Task.status t)) eqn:H; simpl; [reflexivity|].
  by rewrite H.
Qed.

(** C5 (amended): on a batch whose tasks are all terminal,
    [cancelBatchTask] changes no task and no batch field other than the
    status, which it sets to [FAILED] whatever it was; the completion
    timestamp is left as it is. *)
Theorem C5_cancel_after_completion (b : Batch.t) :
  all_terminal (Batch.tasks b) = true →
  cancelBatchTask b = Batch.set_status FAILED b.
Proof.
  intros H. unfold cancelBatchTask, all_terminal in *.
  assert (map cancel_task (Batch.tasks b) = Batch.tasks b) as ->; [|by destruct b].
  induction (Batch.tasks b) as [|t ts IH]; simpl in *; [done|].
  apply andb_prop in H as [Ht Hts].
  by rewrite cancel_task_terminal, IH.
Qed.

Lemma C5_cancel_after_completion_witness :
  cancelBatchTask done_batch
  = Batch.mk "b1" [done_task] (Int 100) FAILED 1 (Some 3).
Proof. exact (C5_cancel_after_completion done_batch eq_refl). Defined.

(** C6: [cancelBatchTask] is idempotent. *)
Theorem C6_cancel_idempotent (b : Batch.t) :
  cancelBatchTask (cancelBatchTask b) = cancelBatchTask b.
Proof.
  unfold cancelBatchTask, Batch.set_status, Batch.set_tasks; simpl.
  f_equal. rewrite map_map. apply map_ext. intros t. apply cancel_task_idem.
Qed.

(** ** downloadTaskSvg *)

(** C9, as stated, fails: a completed task whose result document is the
    empty string is refused although the document is present. *)
Lemma C9_empty_document_refused :
  ¬ delivery_fails_iff_not_succeeded (fun _ => true) blank_task.
Proof.
  intros [H _]. apply H.
  - exists not_ready. split; reflexivity.
  - split; [reflexivity | by eexists].
Qed.

(** C9 (amended): [downloadTaskSvg] throws its own download error
    exactly when the status is not [COMPLETED] or the result document is
    absent or empty; for a completed task with a non-empty document it
    hands the document to [downloadFile] under the name
    [generateSvgFileName] gives and with the SVG mime type, and its
    outcome is then that of [downloadFile]. *)
Theorem C9_download_guard (dom_download : DownloadOptions -> bool) (t : Task.t) :
  (downloadTaskSvg dom_download t = Throw not_ready
   ↔ Task.status t ≠ COMPLETED ∨ Task.svgContent t = None
     ∨ Task.svgContent t = Some EmptyString)
  ∧ (∀ content,
       Task.status t = COMPLETED → Task.svgContent t = Some content →
       content ≠ EmptyString →
       downloadTaskSvg dom_download t
       = downloadFile dom_download
           {| dl_fileName := generateSvgFileName (file_name (Task.file t));
              dl_content := content;
              dl_mimeType := "image/svg+xml" |}).
Proof.
  unfold downloadTaskSvg.
  destruct (Task.status t) eqn:Hst; simpl;
    try (split; [split; [intros _; left; discriminate | reflexivity]
                | intros ? ?; discriminate]).
  destruct (Task.svgContent t) as [[|a c]|] eqn:Hsvg; simpl.
  - split; [split; [intros _; auto | reflexivity]|].
    intros content _ [= <-] Hne. by destruct Hne.
  - split; [|by intros content _ [= <-] _].
    unfold downloadFile. split.
    + destruct (dom_download _); intros H; [discriminate|].
      injection H as H. discriminate H.
    + intros [H | [H | H]]; [by destruct H | discriminate | discriminate].
  - split; [split; [intros _; auto | reflexivity]|].
    intros content _ ?; discriminate.
Qed.

Lemma C9_download_guard_witness :
  downloadTaskSvg (fun _ => true) done_task = Ok ().
Proof.
  destruct (C9_download_guard (fun _ => true) done_task) as [_ H].
  rewrite (H "<svg/>" eq_refl eq_refl); [reflexivity | discriminate].
Defined.

(** ** Double-precision arithmetic *)

Section Binary64.
Local Open Scope Q_scope.

Lemma pow2_pos e : 0 < 2 ^ e.
Proof. apply Qpower_0_lt. reflexivity. Qed.

Lemma pow2_add a b : 2 ^ (a + b) == 2 ^ a * 2 ^ b.
Proof. apply Qpower_plus. discriminate. Qed.

Lemma pow2_le a b : (a <= b)%Z -> 2 ^ a <= 2 ^ b.
Proof. intros H. apply Qpower_le_compat_l; [exact H | discriminate]. Qed.

Lemma pow2_Z k : (0 <= k)%Z -> inject_Z (2 ^ k) == 2 ^ k.
Proof. intros H. apply (Zpower_Qpower 2 k H). Qed.

Lemma log2_bounds (n : Z) :
  (0 < n)%Z -> 2 ^ Z.log2 n <= inject_Z n /\ inject_Z n < 2 ^ (Z.log2 n + 1).
Proof.
  intros Hn. destruct (Z.log2_spec n Hn) as [H1 H2].
  pose proof (Z.log2_nonneg n) as H0.
  rewrite <- !pow2_Z by lia. split.
  - rewrite <- Zle_Qle. exact H1.
  - rewrite <- Zlt_Qlt. exact H2.
Qed.

Lemma ilog2_spec x : 0 < x -> 2 ^ ilog2 x <= x /\ x < 2 ^ (ilog2 x + 1).
Proof.
  intros Hx. unfold ilog2.
  destruct x as [p q]. assert (0 < p)%Z as Hp.
  { unfold Qlt in Hx. simpl in Hx. lia. }
  cbn [Qnum Qden].
  set (lp := Z.log2 p). set (lq := Z.log2 (Z.pos q)).
  destruct (log2_bounds p Hp) as [P1 P2]. fold lp in P1, P2.
  destruct (log2_bounds (Z.pos q) eq_refl) as [Q1 Q2]. fold lq in Q1, Q2.
  assert (p # q == inject_Z p / inject_Z (Z.pos q)) as E by apply Qmake_Qdiv.
  assert (0 < inject_Z (Z.pos q)) as Hq by reflexivity.
  assert ((p # q) * inject_Z (Z.pos q) == inject_Z p) as E'.
  { rewrite E. field. intros H. rewrite H in Hq. discriminate. }
  clear E.
  assert (2 ^ (lp - lq + 1) * 2 ^ lq == 2 ^ (lp + 1)) as A1.
  { rewrite <- pow2_add. f_equiv. lia. }
  assert (2 ^ (lp - lq - 1) * 2 ^ (lq + 1) == 2 ^ lp) as A2.
  { rewrite <- pow2_add. f_equiv. lia. }
  pose proof (pow2_pos (lp - lq + 1)) as B1.
  pose proof (pow2_pos (lp - lq - 1)) as B2.
  pose proof (pow2_pos lq) as B3. pose proof (pow2_pos (lq + 1)) as B4.
  assert ((p # q) < 2 ^ (lp - lq + 1)) as U.
  { apply (Qmult_lt_r _ _ (inject_Z (Z.pos q)) Hq). rewrite E'.
    apply (Qlt_le_trans _ _ _ P2). rewrite <- A1.
    apply Qmult_le_l; assumption. }
  assert (2 ^ (lp - lq - 1) < (p # q)) as L.
  { apply (Qmult_lt_r _ _ (2 ^ (lq + 1)) B4). rewrite A2.
    apply (Qle_lt_trans _ _ _ P1). rewrite <- E'.
    apply Qmult_lt_l; assumption. }
  destruct (Qle_bool (2 ^ (lp - lq)) (p # q)) eqn:Hb.
  - apply Qle_bool_iff in Hb. split; assumption.
  - assert (~ 2 ^ (lp - lq) <= p # q) as Hn.
    { intros H. apply Qle_bool_iff in H. congruence. }
    apply Qnot_le_lt in Hn. split.
    + apply Qlt_le_weak. exact L.
    + replace (lp - lq - 1 + 1)%Z with (lp - lq)%Z by lia. exact Hn.
Qed.

Lemma ilog2_unique x e : 2 ^ e <= x -> x < 2 ^ (e + 1) -> ilog2 x = e.
Proof.
  intros H1 H2.
  assert (0 < x) as Hx by (apply (Qlt_le_trans _ _ _ (pow2_pos e) H1)).
  destruct (ilog2_spec x Hx) as [S1 S2].
  assert (2 ^ e < 2 ^ (ilog2 x + 1)) as A by (eapply Qle_lt_trans; eassumption).
  assert (2 ^ ilog2 x < 2 ^ (e + 1)) as B by (eapply Qle_lt_trans; eassumption).
  apply Qpower_lt_compat_l_inv in A; [|reflexivity].
  apply Qpower_lt_compat_l_inv in B; [|reflexivity]. lia.
Qed.

Lemma ilog2_eq x y : 0 < x -> x == y -> ilog2 x = ilog2 y.
Proof.
  intros Hx E. destruct (ilog2_spec x Hx) as [S1 S2]. symmetry.
  apply ilog2_unique; rewrite <- E; assumption.
Qed.

Lemma ilog2_mono x y : 0 < x -> x <= y -> (ilog2 x <= ilog2 y)%Z.
Proof.
  intros Hx Hxy. assert (0 < y) as Hy by (eapply Qlt_le_trans; eassumption).
  destruct (ilog2_spec x Hx) as [S1 _]. destruct (ilog2_spec y Hy) as [_ S2].
  assert (2 ^ ilog2 x < 2 ^ (ilog2 y + 1)) as A.
  { eapply Qle_lt_trans; [exact S1|]. eapply Qle_lt_trans; eassumption. }
  apply Qpower_lt_compat_l_inv in A; [lia | reflexivity].
Qed.

(** *** Rounding to the nearest integer *)

Lemma rhe_cases x :
  let f := Qfloor x in
  inject_Z f <= x /\ x < inject_Z f + 1
  /\ ((x - inject_Z f < 1 # 2 /\ round_half_even x = f)
      \/ (x - inject_Z f == 1 # 2 /\ (round_half_even x = f \/ round_half_even x = (f + 1)%Z))
      \/ (1 # 2 < x - inject_Z f /\ round_half_even x = (f + 1)%Z)).
Proof.
  intros f. pose proof (Qfloor_le x) as H1. pose proof (Qlt_floor x) as H2.
  fold f in H1, H2. rewrite inject_Z_plus in H2. change (inject_Z 1) with 1 in H2.
  split; [exact H1|]. split; [exact H2|].
  unfold round_half_even. fold f.
  destruct (Qcompare_spec (x - inject_Z f) (1 # 2)) as [E | L | G].
  - right; left. split; [exact E|]. destruct (Z.even f); auto.
  - left. split; [exact L | reflexivity].
  - right; right. split; [exact G | reflexivity].
Qed.

Lemma rhe_near x :
  x - (1 # 2) <= inject_Z (round_half_even x)
  /\ inject_Z (round_half_even x) <= x + (1 # 2).
Proof.
  destruct (rhe_cases x) as (H1 & H2 & [[L ->] | [[E [-> | ->]] | [G ->]]]);
    rewrite ?inject_Z_plus; change (inject_Z 1) with 1; split; lra.
Qed.

#[global] Instance rhe_proper : Proper (Qeq ==> eq) round_half_even.
Proof.
  intros x y E. unfold round_half_even.
  rewrite (Qfloor_comp _ _ E).
  assert (x - inject_Z (Qfloor y) == y - inject_Z (Qfloor y)) as E' by (rewrite E; reflexivity).
  rewrite (Qcompare_comp _ _ E' (1#2) (1#2)) by reflexivity. reflexivity.
Qed.

Lemma rhe_Z z : round_half_even (inject_Z z) = z.
Proof.
  unfold round_half_even. rewrite Qfloor_Z.
  destruct (Qcompare_spec (inject_Z z - inject_Z z) (1 # 2)) as [E | L | G];
    [exfalso; lra | reflexivity | exfalso; lra].
Qed.

Lemma rhe_mono x y : x <= y -> (round_half_even x <= round_half_even y)%Z.
Proof.
  intros Hxy. pose proof (Qfloor_resp_le x y Hxy) as Hf.
  destruct (rhe_cases x) as (X1 & X2 & HX).
  destruct (rhe_cases y) as (Y1 & Y2 & HY).
  destruct (Z.eq_dec (Qfloor x) (Qfloor y)) as [Ef | Nf].
  - (* same floor *)
    unfold round_half_even in *. rewrite <- Ef in *.
    destruct (Qcompare_spec (x - inject_Z (Qfloor x)) (1 # 2)) as [E | L | G];
    destruct (Qcompare_spec (y - inject_Z (Qfloor x)) (1 # 2)) as [E' | L' | G'];
      try lia; try (exfalso; lra); destruct (Z.even (Qfloor x)); lia.
  - assert (Qfloor x + 1 <= Qfloor y)%Z as Hlt by lia.
    assert (round_half_even x <= Qfloor x + 1)%Z as A.
    { destruct HX as [[_ ->] | [[_ [-> | ->]] | [_ ->]]]; lia. }
    assert (Qfloor y <= round_half_even y)%Z as B.
    { destruct HY as [[_ ->] | [[_ [-> | ->]] | [_ ->]]]; lia. }
    lia.
Qed.

(** *** The nearest double *)

Lemma binary64_pos x :
  0 < x -> binary64 x = inject_Z (round_half_even (x / 2 ^ (ilog2 x - 52))) * 2 ^ (ilog2 x - 52).
Proof.
  intros Hx. unfold binary64.
  destruct (Qcompare_spec x 0) as [E | L | G]; [exfalso; lra | exfalso; lra | reflexivity].
Qed.

Lemma binary64_zero x : x == 0 -> binary64 x = 0.
Proof.
  intros Hx. unfold binary64.
  destruct (Qcompare_spec x 0) as [E | L | G]; [reflexivity | exfalso; lra | exfalso; lra].
Qed.

Lemma mantissa_bounds x :
  0 < x -> 2 ^ 52 <= x / 2 ^ (ilog2 x - 52) /\ x / 2 ^ (ilog2 x - 52) < 2 ^ 53.
Proof.
  intros Hx. destruct (ilog2_spec x Hx) as [S1 S2].
  pose proof (pow2_pos (ilog2 x - 52)) as P.
  assert (2 ^ 52 * 2 ^ (ilog2 x - 52) == 2 ^ ilog2 x) as A1.
  { rewrite <- pow2_add. f_equiv. lia. }
  assert (2 ^ 53 * 2 ^ (ilog2 x - 52) == 2 ^ (ilog2 x + 1)) as A2.
  { rewrite <- pow2_add. f_equiv. lia. }
  split.
  - apply Qle_shift_div_l; [exact P|]. rewrite A1. exact S1.
  - apply Qlt_shift_div_r; [exact P|]. rewrite A2. exact S2.
Qed.

Lemma binary64_eq x y : 0 <= x -> x == y -> binary64 x == binary64 y.
Proof.
  intros Hx E. destruct (Qlt_le_dec 0 x) as [Hp | Hz].
  - assert (0 < y) as Hy by (rewrite <- E; exact Hp).
    rewrite (binary64_pos x Hp), (binary64_pos y Hy).
    rewrite <- (ilog2_eq x y Hp E).
    assert (x / 2 ^ (ilog2 x - 52) == y / 2 ^ (ilog2 x - 52)) as E' by (apply Qdiv_comp; [exact E | reflexivity]).
    rewrite (rhe_proper _ _ E'). reflexivity.
  - assert (x == 0) as Z0 by lra.
    rewrite (binary64_zero x Z0), (binary64_zero y) by (rewrite <- E; exact Z0).
    reflexivity.
Qed.

Lemma binary64_nonneg x : 0 <= x -> 0 <= binary64 x.
Proof.
  intros Hx. destruct (Qlt_le_dec 0 x) as [Hp | Hz].
  - rewrite (binary64_pos x Hp).
    destruct (mantissa_bounds x Hp) as [M1 _].
    pose proof (rhe_mono _ _ M1) as R.
    assert (2 ^ 52 == inject_Z (2 ^ 52)) as E by reflexivity.
    rewrite (rhe_proper _ _ E), rhe_Z in R.
    apply Qmult_le_0_compat; [|apply Qlt_le_weak, pow2_pos].
    rewrite Zle_Qle in R. eapply Qle_trans; [|exact R]. discriminate.
  - rewrite binary64_zero by lra. discriminate.
Qed.

(** The rounded mantissa lies between 2^52 and 2^53, ends included. *)
Lemma mantissa_rounded x :
  0 < x ->
  2 ^ 52 <= inject_Z (round_half_even (x / 2 ^ (ilog2 x - 52)))
  /\ inject_Z (round_half_even (x / 2 ^ (ilog2 x - 52))) <= 2 ^ 53.
Proof.
  intros Hx. destruct (mantissa_bounds x Hx) as [M1 M2].
  pose proof (rhe_mono _ _ M1) as R1.
  pose proof (rhe_mono _ _ (Qlt_le_weak _ _ M2)) as R2.
  assert (2 ^ 52 == inject_Z (2 ^ 52)) as E1 by reflexivity.
  assert (2 ^ 53 == inject_Z (2 ^ 53)) as E2 by reflexivity.
  rewrite (rhe_proper _ _ E1), rhe_Z in R1.
  rewrite (rhe_proper _ _ E2), rhe_Z in R2.
  rewrite Zle_Qle in R1, R2. split; [rewrite E1 | rewrite E2]; assumption.
Qed.

Lemma binary64_mono x y : 0 <= x -> x <= y -> binary64 x <= binary64 y.
Proof.
  intros Hx Hxy. destruct (Qlt_le_dec 0 x) as [Hp | Hz].
  - assert (0 < y) as Hy by lra.
    rewrite (binary64_pos x Hp), (binary64_pos y Hy).
    pose proof (ilog2_mono x y Hp Hxy) as He.
    destruct (Z.eq_dec (ilog2 x) (ilog2 y)) as [E | N].
    + rewrite <- E. pose proof (pow2_pos (ilog2 x - 52)) as P.
      apply Qmult_le_r; [exact P|]. rewrite <- Zle_Qle. apply rhe_mono.
      apply Qmult_le_r with (z := 2 ^ (ilog2 x - 52)); [exact P|].
      field_simplify; [lra | lra | lra].
    + destruct (mantissa_rounded x Hp) as [_ U].
      destruct (mantissa_rounded y Hy) as [L _].
      pose proof (pow2_pos (ilog2 x - 52)) as Px.
      pose proof (pow2_pos (ilog2 y - 52)) as Py.
      assert (2 ^ 53 * 2 ^ (ilog2 x - 52) <= 2 ^ 52 * 2 ^ (ilog2 y - 52)) as A.
      { rewrite <- !pow2_add. apply pow2_le. lia. }
      eapply Qle_trans; [apply Qmult_le_compat_r; [exact U | lra]|].
      eapply Qle_trans; [exact A|].
      apply Qmult_le_compat_r; [exact L | lra].
  - rewrite (binary64_zero x) by lra. apply binary64_nonneg. lra.
Qed.

Lemma binary64_Z z : (0 <= z < 2 ^ 53)%Z -> binary64 (inject_Z z) == inject_Z z.
Proof.
  intros [Hz Hlt]. destruct (Z.eq_dec z 0%Z) as [-> | Hne]; [reflexivity|].
  assert (0 < inject_Z z) as Hp by (rewrite <- (Zlt_Qlt 0); lia).
  rewrite (binary64_pos _ Hp).
  destruct (ilog2_spec _ Hp) as [S1 _].
  assert (2 ^ ilog2 (inject_Z z) < 2 ^ 53) as A.
  { eapply Qle_lt_trans; [exact S1|]. change (2 ^ 53) with (inject_Z (2 ^ 53)).
    rewrite <- Zlt_Qlt. exact Hlt. }
  apply Qpower_lt_compat_l_inv in A; [|reflexivity].
  set (e := (ilog2 (inject_Z z) - 52)%Z) in *.
  assert (inject_Z z / 2 ^ e == inject_Z (z * 2 ^ (- e))) as E.
  { rewrite inject_Z_mult, pow2_Z by lia. rewrite Qpower_opp. reflexivity. }
  rewrite (rhe_proper _ _ E), rhe_Z, inject_Z_mult, pow2_Z by lia.
  rewrite Qpower_opp. field. pose proof (pow2_pos e). lra.
Qed.

(** The rounding error is at most half a unit in the last place. *)
Lemma binary64_error x :
  0 <= x ->
  x - x * (1 # 2 ^ 53) <= binary64 x /\ binary64 x <= x + x * (1 # 2 ^ 53).
Proof.
  intros Hx. destruct (Qlt_le_dec 0 x) as [Hp | Hz].
  - rewrite (binary64_pos x Hp).
    destruct (rhe_near (x / 2 ^ (ilog2 x - 52))) as [N1 N2].
    destruct (mantissa_bounds x Hp) as [M1 _].
    set (e := (ilog2 x - 52)%Z) in *. pose proof (pow2_pos e) as P.
    set (u := 2 ^ e) in *.
    set (m := inject_Z (round_half_even (x / u))) in *.
    assert (x / u * u == x) as E by (field; intros H; rewrite H in P; discriminate).
    set (s := x / u) in *.
    change (2 ^ 52) with (4503599627370496 # 1) in M1.
    assert (Qeq (1 # 2 ^ 53) (1 # 9007199254740992)) as -> by reflexivity.
    rewrite <- E. split; nra.
  - rewrite (binary64_zero x) by lra.
    assert (Qeq (1 # 2 ^ 53) (1 # 9007199254740992)) as -> by reflexivity.
    split; lra.
Qed.

(** *** Percentages of counts *)

Lemma Qfloor_ge z x : inject_Z z <= x -> (z <= Qfloor x)%Z.
Proof. intros H. rewrite <- (Qfloor_Z z). apply Qfloor_resp_le, H. Qed.

Lemma Qfloor_lt z x : x < inject_Z z -> (Qfloor x < z)%Z.
Proof.
  intros H. rewrite Zlt_Qlt. eapply Qle_lt_trans; [apply Qfloor_le | exact H].
Qed.

Lemma ratio_bounds (c n : nat) :
  (c <= n)%nat -> (0 < n)%nat ->
  0 <= inject_Z (Z.of_nat c) / inject_Z (Z.of_nat n)
  /\ inject_Z (Z.of_nat c) / inject_Z (Z.of_nat n) <= 1.
Proof.
  intros Hc Hn.
  assert (0 < inject_Z (Z.of_nat n)) as Pn by (rewrite <- (Zlt_Qlt 0); lia).
  assert (0 <= inject_Z (Z.of_nat c)) as Pc by (rewrite <- (Zle_Qle 0); lia).
  assert (inject_Z (Z.of_nat c) <= inject_Z (Z.of_nat n)) as Le by (rewrite <- Zle_Qle; lia).
  split.
  - apply Qle_shift_div_l; [exact Pn | lra].
  - apply Qle_shift_div_r; [exact Pn | lra].
Qed.

Lemma percent_bounds (c n : nat) :
  (c <= n)%nat -> (0 < n)%nat -> (0 <= js_percent c n <= 100)%Z.
Proof.
  intros Hc Hn. destruct (ratio_bounds c n Hc Hn) as [R0 R1]. unfold js_percent.
  set (q := inject_Z (Z.of_nat c) / inject_Z (Z.of_nat n)) in *.
  pose proof (binary64_nonneg q R0) as A0.
  pose proof (binary64_mono q 1 R0 R1) as A1.
  rewrite (binary64_Z 1) in A1 by lia. change (inject_Z 1) with 1 in A1.
  change (inject_Z 100) with 100.
  assert (0 <= binary64 q * 100) as B0 by lra.
  assert (binary64 q * 100 <= 100) as B1 by lra.
  pose proof (binary64_nonneg _ B0) as C0.
  pose proof (binary64_mono _ 100 B0 B1) as C1.
  rewrite (binary64_Z 100) in C1 by lia. change (inject_Z 100) with 100 in C1.
  split.
  - apply Qfloor_ge. change (inject_Z 0) with 0. lra.
  - assert (Qfloor (binary64 (binary64 q * 100) + (1 # 2)) < 101)%Z; [|lia].
    apply Qfloor_lt. change (inject_Z 101) with 101.
    change (inject_Z 100) with 100 in C1. lra.
Qed.

Lemma percent_all (n : nat) : (0 < n)%nat -> js_percent n n = 100%Z.
Proof.
  intros Hn. unfold js_percent.
  assert (0 < inject_Z (Z.of_nat n)) as Pn by (rewrite <- (Zlt_Qlt 0); lia).
  assert (inject_Z (Z.of_nat n) / inject_Z (Z.of_nat n) == inject_Z 1) as E.
  { change (inject_Z 1) with 1. field. lra. }
  assert (binary64 (inject_Z (Z.of_nat n) / inject_Z (Z.of_nat n)) == 1) as E1.
  { rewrite (binary64_eq _ _ (proj1 (ratio_bounds n n (le_n _) Hn)) E).
    apply (binary64_Z 1). lia. }
  assert (binary64 (binary64 (inject_Z (Z.of_nat n) / inject_Z (Z.of_nat n)) * inject_Z 100)
          == 100) as E2.
  { rewrite (binary64_eq _ (inject_Z 100)).
    - apply (binary64_Z 100). lia.
    - rewrite E1. discriminate.
    - rewrite E1. reflexivity. }
  rewrite (Qfloor_comp _ (201 # 2)); [reflexivity|]. rewrite E2. reflexivity.
Qed.

Lemma percent_mono (c1 c2 n : nat) :
  (c1 <= c2)%nat -> (0 < n)%nat -> (js_percent c1 n <= js_percent c2 n)%Z.
Proof.
  intros Hc Hn. unfold js_percent. apply Qfloor_resp_le.
  assert (0 < inject_Z (Z.of_nat n)) as Pn by (rewrite <- (Zlt_Qlt 0); lia).
  assert (0 <= inject_Z (Z.of_nat c1)) as Pc by (rewrite <- (Zle_Qle 0); lia).
  assert (inject_Z (Z.of_nat c1) <= inject_Z (Z.of_nat c2)) as Le by (rewrite <- Zle_Qle; lia).
  assert (0 <= inject_Z (Z.of_nat c1) / inject_Z (Z.of_nat n)) as Q0.
  { apply Qle_shift_div_l; [exact Pn | lra]. }
  assert (inject_Z (Z.of_nat c1) / inject_Z (Z.of_nat n)
          <= inject_Z (Z.of_nat c2) / inject_Z (Z.of_nat n)) as Q1.
  { apply Qmult_le_compat_r; [exact Le|]. apply Qlt_le_weak, Qinv_lt_0_compat, Pn. }
  pose proof (binary64_nonneg _ Q0) as A0.
  pose proof (binary64_mono _ _ Q0 Q1) as A1.
  change (inject_Z 100) with 100.
  apply Qplus_le_l. apply binary64_mono; lra.
Qed.

(** Up to 2^44 tasks: the percentage the code computes is the exact
    rounded percentage, except when 100 c / n lies halfway between two
    integers, where it may be the one below. *)
Lemma percent_close (c n : nat) :
  (c <= n)%nat -> (0 < n)%nat -> (Z.of_nat n <= 2 ^ 44)%Z ->
  (round_percent c n - 1 <= js_percent c n <= round_percent c n)%Z
  /\ ((200 * Z.of_nat c + Z.of_nat n) mod (2 * Z.of_nat n) <> 0
      -> js_percent c n = round_percent c n)%Z.
Proof.
  intros Hc Hn Hbig. destruct (ratio_bounds c n Hc Hn) as [R0 R1].
  unfold js_percent, round_percent.
  set (C := Z.of_nat c) in *. set (N := Z.of_nat n) in *.
  set (q := inject_Z C / inject_Z N) in *.
  assert (0 < inject_Z N) as Pn by (rewrite <- (Zlt_Qlt 0); lia).
  destruct (binary64_error q R0) as [E1 E2].
  pose proof (binary64_nonneg q R0) as A0.
  assert (0 <= binary64 q * inject_Z 100) as B0 by (change (inject_Z 100) with 100; lra).
  destruct (binary64_error _ B0) as [F1 F2].
  change (inject_Z 100) with 100 in *.
  assert (Qeq (1 # 2 ^ 53) (1 # 9007199254740992)) as Eu by reflexivity.
  rewrite Eu in E1, E2, F1, F2. clear Eu.
  set (x1 := binary64 q) in *. set (x2 := binary64 (x1 * 100)) in *.
  set (u := 1 # 9007199254740992) in *.
  assert (q * 100 - 201 * u <= x2 /\ x2 <= q * 100 + 201 * u) as [G1 G2].
  { assert (0 < u) as Pu by reflexivity. assert (u <= 1 # 100) as Su by discriminate.
    split; nra. }
  clearbody x2. clear E1 E2 F1 F2 B0 A0 x1.
  (* the exact quotient *)
  set (M := (200 * C + N)%Z). set (D := (2 * N)%Z).
  pose proof (Z.div_mod M D ltac:(lia)) as Hdiv.
  pose proof (Z.mod_pos_bound M D ltac:(lia)) as Hmod.
  set (R := (M / D)%Z) in *. set (r := (M mod D)%Z) in *.
  set (w := / inject_Z D).
  assert (0 < inject_Z D) as Pd by (rewrite <- (Zlt_Qlt 0); lia).
  assert (inject_Z D * w == 1) as Ew by (unfold w; field; lra).
  assert (inject_Z D <= 2 ^ 45) as Bd.
  { change (2 ^ 45) with (inject_Z (2 ^ 45)). rewrite <- Zle_Qle. lia. }
  assert (q * 100 + (1 # 2) == inject_Z R + inject_Z r * w) as Ev.
  { assert (inject_Z M == inject_Z D * inject_Z R + inject_Z r) as EM.
    { rewrite <- inject_Z_mult, <- inject_Z_plus. rewrite <- Hdiv. reflexivity. }
    assert (q * 100 + (1 # 2) == inject_Z M * w) as ->.
    { unfold q, w, M, D. rewrite inject_Z_plus, !inject_Z_mult.
      change (inject_Z 200) with 200. change (inject_Z 2) with 2. field. lra. }
    rewrite EM. rewrite Qmult_plus_distr_l.
    assert (inject_Z D * inject_Z R * w == inject_Z R * (inject_Z D * w)) as -> by ring.
    rewrite Ew. ring. }
  assert (0 <= inject_Z r) as Pr by (rewrite <- (Zle_Qle 0); lia).
  assert (inject_Z r <= inject_Z D - 1) as Br.
  { change 1 with (inject_Z 1). unfold Qminus. rewrite <- inject_Z_opp, <- inject_Z_plus.
    rewrite <- Zle_Qle. lia. }
  assert (256 * u <= w) as Bw.
  { change (2 ^ 45) with (35184372088832 # 1) in Bd. unfold u.
    assert (0 < w) as Pw by (unfold w; apply Qinv_lt_0_compat, Pd). nra. }
  assert (0 < u) as Pu by reflexivity.
  assert (0 <= inject_Z r * w <= 1 - w) as [T0 T1].
  { assert (0 < w) as Pw by (unfold w; apply Qinv_lt_0_compat, Pd). split; nra. }
  assert (Qfloor (x2 + (1 # 2)) <= R)%Z as Up.
  { assert (Qfloor (x2 + (1 # 2)) < R + 1)%Z; [|lia].
    apply Qfloor_lt. rewrite inject_Z_plus. change (inject_Z 1) with 1. lra. }
  split; [split; [|exact Up]|].
  - apply Qfloor_ge. unfold Z.sub. rewrite inject_Z_plus, inject_Z_opp.
    change (inject_Z 1) with 1. lra.
  - intros Hr. apply Z.le_antisymm; [exact Up|]. apply Qfloor_ge.
    assert (1 <= inject_Z r) as Br1.
    { change 1 with (inject_Z 1). rewrite <- Zle_Qle. lia. }
    assert (0 < w) as Pw by (unfold w; apply Qinv_lt_0_compat, Pd). nra.
Qed.

End Binary64.

(** ** convertBatchTask *)

Lemma js_percent_agrees (c n : nat) :
  (0 < n)%nat → Math_round (js_mul (js_div c n) 100) = Int (js_percent c n).
Proof. intros Hn. destruct n as [|m]; [lia | reflexivity]. Qed.

Lemma count_terminal_le ts : (count_terminal ts ≤ length ts)%nat.
Proof. unfold count_terminal. apply filter_length_le. Qed.

Lemma alter_alter {A} (f g : A → A) (i : nat) (l : list A) :
  alter f i (alter g i l) = alter (f ∘ g) i l.
Proof.
  apply list_eq; intros j. destruct (decide (i = j)) as [->|].
  - rewrite !list_lookup_alter_eq. by destruct (l !! j).
  - by rewrite !list_lookup_alter_ne.
Qed.

#[local] Arguments updateBatchProgress : simpl never.
#[local] Arguments taskCallback : simpl never.

Section BatchRun.

Variable clock : nat -> Z.
Variable encoder : nat -> File -> EncodeOutcome.
Variable schedule : list nat -> nat.
Variable hardwareConcurrency : option nat.

Lemma tasks_updateBatchProgress r :
  Batch.tasks (run_batch (updateBatchProgress clock r)) = Batch.tasks (run_batch r).
Proof.
  unfold updateBatchProgress, run_tasks. simpl.
  destruct (Nat.eqb _ _); reflexivity.
Qed.

Lemma tasks_taskCallback i r :
  Batch.tasks (run_batch (taskCallback clock i r)) = Batch.tasks (run_batch r).
Proof.
  unfold taskCallback. rewrite tasks_updateBatchProgress.
  unfold onTaskProgress. by destruct (run_tasks r !! i).
Qed.

Lemma tasks_upd_task i f r :
  Batch.tasks (run_batch (upd_task i f r)) = alter f i (Batch.tasks (run_batch r)).
Proof. reflexivity. Qed.

Ltac tasks_norm :=
  repeat first [ rewrite tasks_taskCallback | rewrite tasks_upd_task
               | progress cbn [run_batch snd fst] ].

Lemma tasks_start i r :
  run_tasks (processTask_start clock i r) = alter start_fields i (run_tasks r).
Proof.
  unfold processTask_start, convertSingleTask_start, updateProgress, run_tasks.
  tasks_norm. rewrite !alter_alter. reflexivity.
Qed.

Lemma resume_at i r t :
  run_tasks r !! i = Some t →
  ∃ t', run_tasks (processTask_resume clock encoder i r) !! i = Some t'
        ∧ Task.file t' = Task.file t
        ∧ recorded (encoder i (Task.file t)) t'.
Proof.
  intros Hi. unfold processTask_resume. rewrite Hi.
  unfold convertSingleTask_resume, updateProgress, run_tasks in *.
  destruct (encoder i (Task.file t)) as [svg | e];
    unfold run_newDate; tasks_norm;
    rewrite !list_lookup_alter_eq, Hi; simpl;
    eexists; (split; [reflexivity|]); simpl; eauto 10.
Qed.

Lemma resume_frame i r j :
  j ≠ i →
  run_tasks (processTask_resume clock encoder i r) !! j = run_tasks r !! j.
Proof.
  intros Hj. unfold processTask_resume.
  destruct (run_tasks r !! i) as [t|]; [|reflexivity].
  unfold convertSingleTask_resume, updateProgress, run_tasks in *.
  destruct (encoder i (Task.file t)) as [svg | e];
    unfold run_newDate; tasks_norm;
    by rewrite !list_lookup_alter_ne.
Qed.

Lemma resume_length i r :
  length (run_tasks (processTask_resume clock encoder i r)) = length (run_tasks r).
Proof.
  unfold processTask_resume.
  destruct (run_tasks r !! i) as [t|]; [|reflexivity].
  unfold convertSingleTask_resume, updateProgress, run_tasks in *.
  destruct (encoder i (Task.file t)) as [svg | e];
    unfold run_newDate; tasks_norm;
    by rewrite !length_alter.
Qed.

Lemma start_touches i r : only_touches [i] r (processTask_start clock i r).
Proof.
  unfold only_touches, same_shape. rewrite tasks_start. repeat split.
  - apply length_alter.
  - intros j. rewrite list_lookup_alter. case_decide; [subst|done].
    by destruct (run_tasks r !! j).
  - intros j Hj. apply list_lookup_alter_ne. set_solver.
Qed.

Lemma resume_touches i r : only_touches [i] r (processTask_resume clock encoder i r).
Proof.
  unfold only_touches, same_shape. repeat split.
  - apply resume_length.
  - intros j. destruct (decide (j = i)) as [->|Hj]; [|by rewrite resume_frame].
    destruct (run_tasks r !! i) as [t|] eqn:Hi.
    + destruct (resume_at i r t Hi) as (t' & -> & Hf & _). simpl. by rewrite Hf.
    + unfold processTask_resume. by rewrite Hi, Hi.
  - intros j Hj. apply resume_frame. set_solver.
Qed.

Lemma only_touches_refl D r : only_touches D r r.
Proof. by repeat split. Qed.

Lemma only_touches_trans D1 D2 D r1 r2 r3 :
  only_touches D1 r1 r2 → only_touches D2 r2 r3 →
  D1 ⊆ D → D2 ⊆ D → only_touches D r1 r3.
Proof.
  intros [[Hl1 Hf1] Hk1] [[Hl2 Hf2] Hk2] H1 H2. repeat split.
  - congruence.
  - intros j. by rewrite Hf2.
  - intros j Hj. rewrite Hk2, Hk1; set_solver.
Qed.

Lemma done_at_kept D r r' j :
  only_touches D r r' → j ∉ D →
  done_at encoder j (run_tasks r) → done_at encoder j (run_tasks r').
Proof. intros [_ Hk] Hj (t & Ht & Hrec). exists t. by rewrite Hk. Qed.

Lemma resume_done i r :
  (i < length (run_tasks r))%nat →
  done_at encoder i (run_tasks (processTask_resume clock encoder i r)).
Proof.
  intros Hi. apply lookup_lt_is_Some_2 in Hi as [t Ht].
  destruct (resume_at i r t Ht) as (t' & Ht' & Hf & Hrec).
  exists t'. by rewrite Hf.
Qed.

Lemma settle_spec n : ∀ inflight r,
  length inflight = n → NoDup inflight →
  (∀ i, i ∈ inflight → (i < length (run_tasks r))%nat) →
  only_touches inflight r (settle clock encoder schedule n inflight r)
  ∧ ∀ i, i ∈ inflight →
      done_at encoder i (run_tasks (settle clock encoder schedule n inflight r)).
Proof.
  induction n as [|n IH]; intros inflight r Hlen Hnd Hrange; simpl.
  - destruct inflight; [|done]. split; [apply only_touches_refl | set_solver].
  - set (k := (schedule inflight mod length inflight)%nat).
    assert (k < length inflight)%nat as Hk
      by (apply Nat.mod_upper_bound; lia).
    destruct (lookup_lt_is_Some_2 _ _ Hk) as [i Hi]. rewrite Hi.
    pose proof (take_drop_middle _ _ _ Hi) as Hsplit.
    assert (delete k inflight = (take k inflight ++ drop (S k) inflight)%list) as Hdel
      by apply delete_take_drop.
    set (rest := delete k inflight) in *.
    assert (∀ x, x ∈ inflight ↔ x = i ∨ x ∈ rest) as Hmem.
    { intros x. rewrite <- Hsplit, Hdel.
      rewrite !elem_of_app, elem_of_cons. tauto. }
    assert (NoDup rest ∧ i ∉ rest) as [Hnd' Hi'].
    { rewrite <- Hsplit in Hnd. rewrite Hdel.
      apply NoDup_app in Hnd as (Hn1 & Hn2 & Hn3).
      apply NoDup_cons in Hn3 as [Hn3 Hn4]. split.
      - apply NoDup_app. repeat split; [done | | done].
        intros x Hx1 Hx2. apply (Hn2 x Hx1), elem_of_cons. by right.
      - intros Hin. apply elem_of_app in Hin as [Hin | Hin]; [|done].
        apply (Hn2 i Hin), elem_of_cons. by left. }
    pose proof (resume_touches i r) as Ht.
    destruct (IH rest (processTask_resume clock encoder i r)) as [Ht' Hd'].
    { unfold rest. rewrite length_delete by (by eexists). lia. }
    { done. }
    { intros x Hx. rewrite resume_length. apply Hrange, Hmem. by right. }
    split.
    + eapply only_touches_trans; [exact Ht | exact Ht' | |].
      * intros x Hx. apply Hmem. left. by apply list_elem_of_singleton in Hx.
      * intros x Hx. apply Hmem. by right.
    + intros x Hx. apply Hmem in Hx as [-> | Hx]; [|by apply Hd'].
      eapply done_at_kept; [exact Ht' | exact Hi' |].
      apply resume_done, Hrange, Hmem. by left.
Qed.

Lemma starts_touch group : ∀ r,
  only_touches group r (foldl (fun r i => processTask_start clock i r) r group).
Proof.
  induction group as [|i group IH]; intros r; simpl.
  - apply only_touches_refl.
  - eapply only_touches_trans; [apply start_touches | apply IH | |];
      intros x Hx; apply elem_of_cons; [left | by right].
    by apply list_elem_of_singleton in Hx.
Qed.

Lemma processGroup_spec group r :
  NoDup group → (∀ i, i ∈ group → (i < length (run_tasks r))%nat) →
  only_touches group r (processGroup clock encoder schedule group r)
  ∧ ∀ i, i ∈ group →
      done_at encoder i (run_tasks (processGroup clock encoder schedule group r)).
Proof.
  intros Hnd Hrange. unfold processGroup.
  pose proof (starts_touch group r) as Hs.
  destruct (settle_spec (length group) group
              (foldl (fun r i => processTask_start clock i r) r group))
    as [Ht Hd]; [done | done | |].
  { intros i Hi. destruct Hs as [[-> _] _]. by apply Hrange. }
  split; [|done].
  eapply only_touches_trans; [exact Hs | exact Ht | |]; done.
Qed.

Lemma groups_loop_spec limit : (0 < limit)%nat → ∀ fuel i r,
  (length (run_tasks r) - i ≤ fuel)%nat →
  (∀ j, (j < i)%nat → (j < length (run_tasks r))%nat →
        done_at encoder j (run_tasks r)) →
  ∃ r', groups_loop clock encoder schedule fuel i limit r = Some r'
        ∧ same_shape r r'
        ∧ ∀ j, (j < length (run_tasks r'))%nat → done_at encoder j (run_tasks r').
Proof.
  intros Hlimit. induction fuel as [|fuel IH]; intros i r Hfuel Hdone.
  - simpl. destruct (i <? length (run_tasks r))%nat eqn:Hi.
    + apply Nat.ltb_lt in Hi. lia.
    + apply Nat.ltb_ge in Hi. exists r. repeat split. intros j Hj.
      apply Hdone; lia.
  - simpl. destruct (i <? length (run_tasks r))%nat eqn:Hi.
    + apply Nat.ltb_lt in Hi.
      set (group := slice_positions (length (run_tasks r)) i limit).
      assert (∀ j, j ∈ group ↔
                (i ≤ j ∧ j < Nat.min (i + limit) (length (run_tasks r)))%nat)
        as Hgroup.
      { intros j. unfold group, slice_positions. rewrite elem_of_seq. lia. }
      destruct (processGroup_spec group r) as [[[Hl Hf] Hk] Hd].
      { apply NoDup_seq. }
      { intros j Hj. apply Hgroup in Hj. lia. }
      destruct (IH (i + limit)%nat (processGroup clock encoder schedule group r))
        as (r' & Hr' & [Hl' Hf'] & Hd').
      { rewrite Hl. lia. }
      { intros j Hj1 Hj2. rewrite Hl in Hj2.
        destruct (decide (j < i)%nat) as [Hlt | Hge].
        - destruct (Hdone j Hlt Hj2) as (t & Ht & Hrec). exists t.
          rewrite Hk; [done|]. rewrite Hgroup. lia.
        - apply Hd, Hgroup. lia. }
      exists r'. repeat split; [done | congruence | | done].
      intros j. by rewrite Hf'.
    + apply Nat.ltb_ge in Hi. exists r. repeat split. intros j Hj.
      apply Hdone; lia.
Qed.

Lemma count_terminal_all ts :
  count_terminal ts = length ts ↔ all_terminal ts = true.
Proof.
  unfold count_terminal, all_terminal.
  induction ts as [|t ts IH]; simpl; [done|].
  destruct (is_terminal (Task.status t)); simpl.
  - rewrite <- IH. split; intros H; lia.
  - pose proof (count_terminal_le ts) as Hle. unfold count_terminal in Hle.
    split; [lia | done].
Qed.

Lemma updateBatchProgress_log r :
  (0 < length (run_tasks r))%nat →
  run_batchLog (updateBatchProgress clock r)
  = (run_ticks r, run_batch (updateBatchProgress clock r)) :: run_batchLog r
  ∧ in_step clock (run_ticks r, run_batch (updateBatchProgress clock r)).
Proof.
  intros Hn. unfold in_step. cbn [fst snd].
  rewrite tasks_updateBatchProgress. rewrite <- count_terminal_all.
  unfold updateBatchProgress. cbn [run_tasks upd_batch run_batch Batch.tasks
    Batch.set_totalProgress].
  fold (run_tasks r). rewrite (js_percent_agrees _ _ Hn).
  destruct (Nat.eqb (count_terminal (run_tasks r)) (length (run_tasks r))) eqn:Hall.
  - repeat split.
  - apply Nat.eqb_neq in Hall. repeat split; done.
Qed.

(** A property of the run that every primitive step keeps is kept by
    the whole loop. *)
Section Preserved.
Variable I : Run → Prop.
Hypothesis I_upd_task : ∀ i f r, I r → I (upd_task i f r).
Hypothesis I_callback : ∀ i r, I r → I (taskCallback clock i r).
Hypothesis I_newDate : ∀ r, I r → I (run_newDate clock r).2.

Lemma start_keeps i r : I r → I (processTask_start clock i r).
Proof.
  intros H. unfold processTask_start, convertSingleTask_start, updateProgress.
  auto 10.
Qed.

Lemma resume_keeps i r : I r → I (processTask_resume clock encoder i r).
Proof.
  intros H. unfold processTask_resume.
  destruct (run_tasks r !! i) as [t|]; [|done].
  unfold convertSingleTask_resume, updateProgress.
  destruct (encoder i (Task.file t)); cbn [snd].
  - destruct (run_newDate clock _) as [d r1] eqn:Hd. cbn [snd].
    apply I_callback, I_callback, I_upd_task.
    change r1 with (d, r1).2. rewrite <- Hd. auto 10.
  - auto 10.
Qed.

Lemma settle_keeps n : ∀ inflight r,
  I r → I (settle clock encoder schedule n inflight r).
Proof.
  induction n as [|n IH]; intros inflight r H; simpl; [done|].
  destruct (inflight !! _); [|done]. apply IH, resume_keeps, H.
Qed.

Lemma processGroup_keeps group r :
  I r → I (processGroup clock encoder schedule group r).
Proof.
  intros H. unfold processGroup. apply settle_keeps.
  revert r H. induction group as [|i group IH]; intros r H; simpl; [done|].
  apply IH, start_keeps, H.
Qed.

Lemma groups_loop_keeps limit fuel : ∀ i r r',
  I r → groups_loop clock encoder schedule fuel i limit r = Some r' → I r'.
Proof.
  induction fuel as [|fuel IH]; intros i r r' H; simpl;
    destruct (i <? length (run_tasks r))%nat; try congruence.
  apply IH, processGroup_keeps, H.
Qed.
End Preserved.

Lemma all_terminal_lookup ts :
  all_terminal ts = true
  ↔ ∀ i t, ts !! i = Some t → is_terminal (Task.status t) = true.
Proof.
  unfold all_terminal. rewrite forallb_forall. split.
  - intros H i t Hi. apply H, list_elem_of_In, list_elem_of_lookup. eauto.
  - intros H t Ht. apply list_elem_of_In, list_elem_of_lookup in Ht as [i Hi]. eauto.
Qed.

Lemma recorded_terminal o t : recorded o t → is_terminal (Task.status t) = true.
Proof. destruct o; simpl; intros [-> _]; reflexivity. Qed.

Lemma maxWorkers_pos : (0 < maxWorkers hardwareConcurrency)%nat.
Proof. unfold maxWorkers. destruct hardwareConcurrency as [[|n]|]; lia. Qed.

(** The loop ends within its fuel and leaves every task settled. *)
Lemma convertBatchTask_returns (b : Batch.t) (k : nat) :
  Batch.tasks b ≠ [] →
  let r0 := upd_batch (Batch.set_status PROCESSING)
              {| run_batch := b; run_ticks := k;
                 run_taskLog := []; run_batchLog := [] |} in
  ∃ r', groups_loop clock encoder schedule (length (Batch.tasks b)) 0
          (Nat.min (maxWorkers hardwareConcurrency) (length (Batch.tasks b))) r0
        = Some r'
      ∧ convertBatchTask clock encoder schedule hardwareConcurrency b k
        = Some (updateBatchProgress clock r')
      ∧ same_shape r0 r'
      ∧ ∀ j, (j < length (run_tasks r'))%nat → done_at encoder j (run_tasks r').
Proof.
  intros Hne r0.
  assert (0 < length (Batch.tasks b))%nat as Hlen
    by (destruct (Batch.tasks b); [done | simpl; lia]).
  pose proof maxWorkers_pos as Hw.
  destruct (groups_loop_spec
              (Nat.min (maxWorkers hardwareConcurrency) (length (Batch.tasks b)))
              ltac:(lia) (length (Batch.tasks b)) 0%nat r0)
    as (r' & Hr' & Hshape & Hdone).
  { cbn. lia. }
  { intros j Hj. lia. }
  exists r'. repeat split; try done; try apply Hshape.
  unfold convertBatchTask. cbn [run_tasks upd_batch run_batch Batch.tasks
    Batch.set_status]. fold r0. by rewrite Hr'.
Qed.








End BatchRun.

(** C3: on a non-empty batch [convertBatchTask] returns, whatever the
    encoder does and in whatever order its calls settle; every task then
    records the outcome of its own encoder call ([COMPLETED] with the
    document, or [FAILED] with the error message), so every task is
    terminal, and the batch's [totalProgress] is 100. *)
Theorem C3_batch_run_settles_every_task
    (clock : nat -> Z) (encoder : nat -> File -> EncodeOutcome)
    (schedule : list nat -> nat) (hardwareConcurrency : option nat)
    (b : Batch.t) (k : nat) :
  Batch.tasks b ≠ [] →
  ∃ r, convertBatchTask clock encoder schedule hardwareConcurrency b k = Some r
       ∧ length (run_tasks r) = length (Batch.tasks b)
       ∧ (∀ i t, Batch.tasks b !! i = Some t →
            ∃ t', run_tasks r !! i = Some t'
                  ∧ Task.file t' = Task.file t
                  ∧ recorded (encoder i (Task.file t)) t')
       ∧ all_terminal (run_tasks r) = true
       ∧ Batch.totalProgress (run_batch r) = Int 100.
Proof.
  intros Hne.
  destruct (convertBatchTask_returns clock encoder schedule hardwareConcurrency
              b k Hne) as (r' & _ & Hrun & [Hlen Hfiles] & Hdone).
  exists (updateBatchProgress clock r'). unfold run_tasks in *.
  rewrite tasks_updateBatchProgress.
  assert (all_terminal (Batch.tasks (run_batch r')) = true) as Hall.
  { apply all_terminal_lookup. intros i t Hi.
    destruct (Hdone i) as (t' & Ht' & Hrec); [by eapply lookup_lt_Some|].
    rewrite Hi in Ht'. injection Ht' as <-. by eapply recorded_terminal. }
  repeat split; try done.
  - intros i t Hi. specialize (Hfiles i). cbn in Hfiles. rewrite Hi in Hfiles.
    destruct (Hdone i) as (t' & Ht' & Hrec).
    { rewrite Hlen. by eapply lookup_lt_Some. }
    rewrite Ht' in Hfiles. injection Hfiles as Hf.
    exists t'. rewrite <- Hf. done.
  - assert (0 < length (run_tasks r'))%nat as Hpos.
    { unfold run_tasks. rewrite Hlen. cbn.
      destruct (Batch.tasks b); [done | simpl; lia]. }
    destruct (updateBatchProgress_log clock r' Hpos) as [_ [Hp _]].
    cbn [snd] in Hp. rewrite Hp, tasks_updateBatchProgress.
    apply count_terminal_all in Hall. rewrite Hall.
    by rewrite percent_all.
Qed.

Lemma C3_batch_run_settles_every_task_witness :
  ∃ r, convertBatchTask clock0 encoder0 schedule0 (Some 2%nat) three_batch 5 = Some r
       ∧ length (run_tasks r) = 3%nat
       ∧ (∀ i t, three_tasks !! i = Some t →
            ∃ t', run_tasks r !! i = Some t'
                  ∧ Task.file t' = Task.file t
                  ∧ recorded (encoder0 i (Task.file t)) t')
       ∧ all_terminal (run_tasks r) = true
       ∧ Batch.totalProgress (run_batch r) = Int 100.
Proof.
  apply (C3_batch_run_settles_every_task clock0 encoder0 schedule0 (Some 2%nat)
           three_batch 5).
  simpl. discriminate.
Defined.




(** C10: on a batch without tasks [convertBatchTask] returns at once:
    the only update sets [totalProgress] to [NaN] (the quotient 0/0),
    the status to [COMPLETED] and the completion timestamp to the clock
    reading, and hands the batch to [onBatchProgress] once. *)
Theorem C10_empty_batch_completes_with_NaN
    (clock : nat -> Z) (encoder : nat -> File -> EncodeOutcome)
    (schedule : list nat -> nat) (hardwareConcurrency : option nat)
    (b : Batch.t) (k : nat) :
  Batch.tasks b = [] →
  let done := Batch.mk (Batch.batchId b) [] NaN COMPLETED (Batch.createdAt b)
                (Some (clock k)) in
  convertBatchTask clock encoder schedule hardwareConcurrency b k
  = Some {| run_batch := done; run_ticks := S k;
            run_taskLog := []; run_batchLog := [(k, done)] |}
  ∧ ∀ z, Batch.totalProgress done ≠ Int z.
Proof.
  intros Hb. destruct b as [bid ts tp st ca co]. simpl in Hb. subst ts.
  split; [reflexivity | discriminate].
Qed.

Lemma C10_empty_batch_completes_with_NaN_witness :
  ∃ r, convertBatchTask clock0 encoder0 schedule0 None empty_batch 7 = Some r
       ∧ Batch.totalProgress (run_batch r) = NaN
       ∧ Batch.status (run_batch r) = COMPLETED
       ∧ Batch.completedAt (run_batch r) = Some 1700000000007.
Proof.
  destruct (C10_empty_batch_completes_with_NaN clock0 encoder0 schedule0 None
              empty_batch 7 eq_refl) as [H _].
  eexists. split; [exact H|]. repeat split.
Defined.

(** ** The history store *)

Lemma string_leb_trans a : ∀ b c,
  String.leb a b = true → String.leb b c = true → String.leb a c = true.
Proof.
  unfold String.leb.
  induction a as [|x a IH]; intros [|y b] [|z c]; simpl; try done.
  unfold Ascii.compare.
  destruct (N.compare_spec (N_of_ascii x) (N_of_ascii y)) as [E1|L1|G1],
           (N.compare_spec (N_of_ascii y) (N_of_ascii z)) as [E2|L2|G2],
           (N.compare_spec (N_of_ascii x) (N_of_ascii z)) as [E3|L3|G3];
    try done; try lia.
  apply IH.
Qed.

#[global] Instance index_prev_total : Total index_prev.
Proof.
  intros [k1 x1] [k2 x2]. unfold index_prev; simpl.
  destruct (Z.lt_trichotomy (StorageItem.timestamp x1) (StorageItem.timestamp x2))
    as [H | [H | H]]; [by right; left | | by left; left].
  destruct (String.leb_total k1 k2); [right | left]; right; split; congruence.
Qed.

#[global] Instance index_prev_trans : Transitive index_prev.
Proof.
  intros [k1 x1] [k2 x2] [k3 x3]. unfold index_prev; simpl.
  intros [H1 | [H1 L1]] [H2 | [H2 L2]]; try (left; lia).
  right. split; [lia|]. by eapply string_leb_trans.
Qed.

Lemma saveHistory_ok clock p h w w' :
  saveHistory clock p h w = (Ok (), w') →
  let live := if db w then heap w else meanwhile p (heap w) in
  objectStore w'
  = <[History.id h := StorageItem.mk (History.id h) (structuredClone live h)
                        (clock (sys_ticks (sys w)))]> (objectStore w)
  ∧ sys_ticks (sys w') = S (sys_ticks (sys w))
  ∧ db w' = true
  ∧ heap w' = live.
Proof.
  unfold saveHistory, ensure_open, init.
  destruct (db w) eqn:Hdb; [|destruct (open_ok p) eqn:Hopen];
    simpl; try discriminate;
    destruct (request_ok p); try discriminate;
    intros [= <-]; simpl; by rewrite ?Hdb.
Qed.





(** C8: when [saveBatchToHistory] returns a record id, [getHistoryById]
    on that id returns a record whose batch is the value the live batch
    had when the record was put into the store (the value at the call
    when the connection was already open, otherwise the value once the
    open request had been served), and this stays so whatever is
    written to the live objects afterwards. *)
Theorem C8_saved_snapshot_is_a_copy
    (clock : nat -> Z) (random36 : nat -> string) (p : Platform)
    (batchTask : loc) (w w' : World) (recordId : string) :
  saveBatchToHistory clock random36 p batchTask w = (Ok recordId, w') →
  let snapshot := (if db w then heap w else meanwhile p (heap w)) batchTask in
  recordId = (generateId clock random36 (sys w)).1
  ∧ ∀ (p' : Platform) (later : loc -> Batch.t),
      request_ok p' = true →
      (getHistoryById p' recordId (with_heap later w')).1
      = Ok (Some (History.mk recordId snapshot (clock (S (sys_ticks (sys w)))))).
Proof.
  unfold saveBatchToHistory. cbn [generateId fst snd sys_ticks sys_draws].
  match goal with
  | |- context [saveHistory ?c ?q ?h ?x] =>
      destruct (saveHistory c q h x) as [[[]|e] w2] eqn:Hsave
  end; [|discriminate].
  intros [= <- <-].
  destruct (saveHistory_ok _ _ _ _ _ Hsave) as (Hstore & _ & Hdb & _).
  cbn in Hstore. split; [reflexivity|].
  intros p' later Hreq.
  unfold getHistoryById, ensure_open, with_heap. cbn [db objectStore].
  rewrite Hdb, Hreq. cbn [fst objectStore]. rewrite Hstore, lookup_insert_eq.
  reflexivity.
Qed.

Lemma C8_saved_snapshot_is_a_copy_witness :
  ∃ recordId w',
    saveBatchToHistory clock0 random0 platform_ok 0%nat world1 = (Ok recordId, w')
    ∧ (getHistoryById platform_ok recordId
         (with_heap (heap_write 0%nat (cancelBatchTask three_batch) (heap w')) w')).1
      = Ok (Some (History.mk recordId three_batch 1700000000001)).
Proof.
  eexists _, _. split; [vm_compute; reflexivity|].
  match goal with
  | |- context [getHistoryById _ ?i (with_heap ?h ?x)] =>
      destruct (C8_saved_snapshot_is_a_copy clock0 random0 platform_ok 0%nat
                  world1 x i eq_refl) as [_ H];
      rewrite (H platform_ok h eq_refl)
  end.
  reflexivity.
Defined.

(** * Further properties *)

(** ** Batches: creation, statistics, cancellation *)

Lemma createTasks_spec clock random36 files : ∀ s,
  match createTasks clock random36 files s with
  | (Ok ts, _) =>
      Forall (fun f => validateImageFile f = true) files
      ∧ map Task.file ts = files
      ∧ Forall (fun t => task_consistent t ∧ Task.status t = PENDING
                         ∧ Task.progress t = 0) ts
  | (Throw e, _) =>
      ∃ pre f post,
        files = (pre ++ f :: post)%list
        ∧ Forall (fun f => validateImageFile f = true) pre
        ∧ validateImageFile f = false
        ∧ e = {| err_type := FILE_READ_ERROR;
                 err_message := "不支持的文件格式: " ++ file_type f |}
  end.
Proof.
  induction files as [|f rest IH]; intros s; simpl.
  - repeat split; constructor.
  - destruct (createTask clock random36 f s) as [[t|e] s1] eqn:Hf.
    + pose proof (C2 := created_task_consistent _ _ _ _ _ _ Hf).
      unfold createTask in Hf. destruct (validateImageFile f) eqn:Hv; [|discriminate].
      simpl in Hf. injection Hf as <- <-.
      specialize (IH {| sys_ticks := S (S (sys_ticks s)); sys_draws := S (sys_draws s) |}).
      destruct (createTasks clock random36 rest _) as [[ts|e] s2].
      * destruct IH as (Hall & Hfiles & Hts). repeat split.
        -- by constructor.
        -- simpl. by rewrite Hfiles.
        -- constructor; [|done]. destruct C2 as [C2 _].
           split; [exact C2 | by split].
      * destruct IH as (pre & g & post & -> & Hpre & Hg & ->).
        exists (f :: pre), g, post. repeat split; try done. by constructor.
    + unfold createTask in Hf. destruct (validateImageFile f) eqn:Hv; [discriminate|].
      simpl in Hf. injection Hf as <- <-.
      exists [], f, rest. repeat split; try done.
Qed.

Lemma createBatchTask_spec
    (clock : nat -> Z) (random36 : nat -> string) (files : list File) (s : Sys) :
  match createBatchTask clock random36 files s with
  | (Ok b, _) =>
      Forall (fun f => validateImageFile f = true) files
      ∧ map Task.file (Batch.tasks b) = files
      ∧ Forall (fun t => task_consistent t ∧ Task.status t = PENDING
                         ∧ Task.progress t = 0) (Batch.tasks b)
      ∧ Batch.totalProgress b = Int 0 ∧ Batch.status b = PENDING
      ∧ Batch.completedAt b = None
  | (Throw e, _) =>
      ∃ pre f post,
        files = (pre ++ f :: post)%list
        ∧ Forall (fun f => validateImageFile f = true) pre
        ∧ validateImageFile f = false
        ∧ e = {| err_type := FILE_READ_ERROR;
                 err_message := "不支持的文件格式: " ++ file_type f |}
  end.
Proof.
  unfold createBatchTask.
  pose proof (createTasks_spec clock random36 files s) as H.
  destruct (createTasks clock random36 files s) as [[ts|e] s1]; simpl; [|exact H].
  destruct H as (H1 & H2 & H3). repeat split; done.
Qed.

(** X1: [createBatchTask] is all or nothing.  It returns a batch exactly
    when every file is of a supported kind; the batch then has one
    pending task per file, in the order of the files, progress 0 and
    status [PENDING].  Otherwise it throws the [FILE_READ_ERROR] of the
    first unsupported file, naming that file's type. *)
Theorem X1_createBatchTask_all_or_nothing
    (clock : nat -> Z) (random36 : nat -> string) (files : list File) (s : Sys) :
  match createBatchTask clock random36 files s with
  | (Ok b, _) =>
      Forall (fun f => validateImageFile f = true) files
      ∧ map Task.file (Batch.tasks b) = files
      ∧ Forall (fun t => task_consistent t ∧ Task.status t = PENDING
                         ∧ Task.progress t = 0) (Batch.tasks b)
      ∧ Batch.totalProgress b = Int 0 ∧ Batch.status b = PENDING
      ∧ Batch.completedAt b = None
  | (Throw e, _) =>
      ∃ pre f post,
        files = (pre ++ f :: post)%list
        ∧ Forall (fun f => validateImageFile f = true) pre
        ∧ validateImageFile f = false
        ∧ e = {| err_type := FILE_READ_ERROR;
                 err_message := "不支持的文件格式: " ++ file_type f |}
  end.
Proof. apply createBatchTask_spec. Qed.

Lemma count_status_partition ts :
  length ts = (count_status COMPLETED ts + count_status FAILED ts
               + count_status PROCESSING ts + count_status PENDING ts)%nat.
Proof.
  unfold count_status. induction ts as [|t ts IH]; simpl; [done|].
  destruct (Task.status t); simpl; lia.
Qed.

Lemma count_status_le s ts : (count_status s ts ≤ length ts)%nat.
Proof. unfold count_status. apply filter_length_le. Qed.

(** X2: the statistics of a batch partition its tasks: the total is the
    sum of the completed, failed, processing and pending counts; the
    success rate is always an integer between 0 and 100 (never [NaN]):
    0 for a batch without tasks, otherwise what
    [Math.round((completed / total) * 100)] evaluates to in double
    precision, which for up to 2^44 tasks is the exact rounded
    percentage, except when 100 × completed / total lies halfway between
    two integers, where it can be the integer below. *)
Theorem X2_statistics_partition (b : Batch.t) :
  let st := getBatchStatistics b in
  st_total st = (st_completed st + st_failed st + st_processing st
                 + st_pending st)%nat
  ∧ ∃ z, st_successRate st = Int z ∧ 0 <= z <= 100
         ∧ z = (if (0 <? st_total st)%nat
                then js_percent (st_completed st) (st_total st) else 0)
         ∧ ((0 < st_total st)%nat → Z.of_nat (st_total st) <= 2 ^ 44 →
            round_percent (st_completed st) (st_total st) - 1 <= z
            ∧ z <= round_percent (st_completed st) (st_total st)
            ∧ ((200 * Z.of_nat (st_completed st) + Z.of_nat (st_total st))
                 mod (2 * Z.of_nat (st_total st)) ≠ 0 →
               z = round_percent (st_completed st) (st_total st))).
Proof.
  unfold getBatchStatistics.
  cbn [st_total st_completed st_failed st_processing st_pending st_successRate].
  split; [apply count_status_partition|].
  pose proof (count_status_le COMPLETED (Batch.tasks b)) as Hle.
  destruct (0 <? length (Batch.tasks b))%nat eqn:Hn.
  - apply Nat.ltb_lt in Hn. rewrite (js_percent_agrees _ _ Hn).
    eexists. split; [reflexivity|]. split; [by apply percent_bounds|].
    split; [reflexivity|]. intros _ Hbig.
    destruct (percent_close _ _ Hle Hn Hbig) as [[H1 H2] H3]. auto.
  - apply Nat.ltb_ge in Hn. exists 0. split; [reflexivity|]. split; [lia|].
    split; [reflexivity|]. intros Hpos. lia.
Qed.

Lemma status_cancel_task t :
  Task.status (cancel_task t)
  = match Task.status t with
    | PENDING | PROCESSING => FAILED
    | st => st
    end.
Proof.
  unfold cancel_task. destruct (is_cancellable (Task.status t)) eqn:H; simpl.
  - apply is_cancellable_spec in H. by destruct H as [-> | ->].
  - by destruct (Task.status t).
Qed.

Lemma count_status_cancel s ts :
  count_status s (map cancel_task ts)
  = match s with
    | COMPLETED => count_status COMPLETED ts
    | FAILED => (count_status FAILED ts + count_status PROCESSING ts
                 + count_status PENDING ts)%nat
    | _ => 0%nat
    end.
Proof.
  unfold count_status. induction ts as [|t ts IH]; simpl; [by destruct s|].
  rewrite status_cancel_task.
  destruct (Task.status t), s; simpl in *; lia.
Qed.

(** X3: [cancelBatchTask] turns every pending or processing task into a
    failed one carrying the cancellation message and leaves every
    terminal task as it is.  Afterwards every task is terminal, the
    completed count is unchanged, the failed count has absorbed the
    pending and processing counts, and the batch is [FAILED]. *)
Theorem X3_cancel_effect (b : Batch.t) :
  let b' := cancelBatchTask b in
  let st := getBatchStatistics b in
  let st' := getBatchStatistics b' in
  all_terminal (Batch.tasks b') = true
  ∧ Batch.status b' = FAILED
  ∧ st_total st' = st_total st
  ∧ st_completed st' = st_completed st
  ∧ st_failed st' = (st_failed st + st_processing st + st_pending st)%nat
  ∧ st_processing st' = 0%nat ∧ st_pending st' = 0%nat
  ∧ ∀ i t, Batch.tasks b !! i = Some t →
      Batch.tasks b' !! i
      = Some (if is_terminal (Task.status t) then t
              else Task.set_error (Some cancelled_message)
                     (Task.set_status FAILED t)).
Proof.
  unfold getBatchStatistics, cancelBatchTask.
  cbn [st_total st_completed st_failed st_processing st_pending
       Batch.tasks Batch.status Batch.set_status Batch.set_tasks].
  rewrite !count_status_cancel, length_map. repeat split.
  - unfold all_terminal. induction (Batch.tasks b) as [|t ts IH]; simpl; [done|].
    rewrite IH, andb_true_r, status_cancel_task.
    by destruct (Task.status t).
  - intros i t Hi. rewrite list_lookup_fmap, Hi. simpl. f_equal.
    unfold cancel_task. by destruct (Task.status t).
Qed.

Lemma count_completed_pointwise (f : nat → Task.t → bool) : ∀ ts ts',
  length ts' = length ts →
  (∀ i t t', ts !! i = Some t → ts' !! i = Some t' →
             bool_decide (Task.status t' = COMPLETED) = f i t) →
  count_status COMPLETED ts'
  = length (List.filter (fun ok : bool => ok) (imap f ts)).
Proof.
  unfold count_status.
  intros ts. revert f. induction ts as [|t ts IH]; intros f [|t' ts'] Hlen H;
    simpl in *; try done.
  rewrite (H 0%nat t t' eq_refl eq_refl).
  assert (length (List.filter (fun t => bool_decide (Task.status t = COMPLETED)) ts')
          = length (List.filter (fun ok : bool => ok) (imap (f ∘ S) ts))) as IH'.
  { apply IH; [lia|]. intros i x y Hx Hy. apply (H (S i) x y Hx Hy). }
  destruct (f 0%nat t); simpl; by rewrite IH'.
Qed.

(** What a run leaves: the loop ends, the tasks keep their number and
    their files, and each records the outcome of its encoder call. *)
Lemma convertBatchTask_outcomes clock encoder schedule hardwareConcurrency b k :
  Batch.tasks b ≠ [] →
  ∃ r, convertBatchTask clock encoder schedule hardwareConcurrency b k = Some r
       ∧ length (run_tasks r) = length (Batch.tasks b)
       ∧ in_step clock (run_ticks r - 1, run_batch r)%nat
       ∧ ∀ i t, Batch.tasks b !! i = Some t →
           ∃ t', run_tasks r !! i = Some t'
                 ∧ Task.file t' = Task.file t
                 ∧ recorded (encoder i (Task.file t)) t'.
Proof.
  intros Hne.
  destruct (convertBatchTask_returns clock encoder schedule hardwareConcurrency
              b k Hne) as (r' & _ & Hrun & [Hlen Hfiles] & Hdone).
  exists (updateBatchProgress clock r'). unfold run_tasks in *.
  rewrite tasks_updateBatchProgress.
  assert (0 < length (run_tasks r'))%nat as Hpos.
  { unfold run_tasks. rewrite Hlen. cbn.
    destruct (Batch.tasks b); [done | simpl; lia]. }
  destruct (updateBatchProgress_log clock r' Hpos) as [_ Hagg].
  assert (all_terminal (Batch.tasks (run_batch r')) = true) as Hall.
  { apply all_terminal_lookup. intros i t Hi.
    destruct (Hdone i) as (t' & Ht' & Hrec); [by eapply lookup_lt_Some|].
    rewrite Hi in Ht'. injection Ht' as <-. by eapply recorded_terminal. }
  assert (run_ticks (updateBatchProgress clock r') = S (run_ticks r')) as ->.
  { apply count_terminal_all in Hall. unfold updateBatchProgress, run_tasks.
    cbn [upd_batch run_batch Batch.tasks Batch.set_totalProgress].
    rewrite Hall, Nat.eqb_refl. reflexivity. }
  replace (S (run_ticks r') - 1)%nat with (run_ticks r') by lia.
  split; [done|]. split; [done|]. split; [exact Hagg|].
  intros i t Hi. specialize (Hfiles i). cbn in Hfiles. rewrite Hi in Hfiles.
  destruct (Hdone i) as (t' & Ht' & Hrec).
  { rewrite Hlen. by eapply lookup_lt_Some. }
  rewrite Ht' in Hfiles. injection Hfiles as Hf.
  exists t'. rewrite <- Hf. done.
Qed.

(** X4: after [convertBatchTask] on a non-empty batch no task is pending
    or processing; the completed count is the number of encoder calls
    that succeeded, the failed count the number that failed, and the
    batch is [COMPLETED] exactly when every call succeeded. *)
Theorem X4_statistics_after_run
    (clock : nat -> Z) (encoder : nat -> File -> EncodeOutcome)
    (schedule : list nat -> nat) (hardwareConcurrency : option nat)
    (b : Batch.t) (k : nat) :
  Batch.tasks b ≠ [] →
  ∃ r, convertBatchTask clock encoder schedule hardwareConcurrency b k = Some r
       ∧ let st := getBatchStatistics (run_batch r) in
         st_total st = length (Batch.tasks b)
         ∧ st_pending st = 0%nat ∧ st_processing st = 0%nat
         ∧ st_completed st = count_encoded encoder (Batch.tasks b)
         ∧ st_failed st = (st_total st - st_completed st)%nat
         ∧ (Batch.status (run_batch r) = COMPLETED
            ↔ st_completed st = st_total st).
Proof.
  intros Hne.
  destruct (convertBatchTask_outcomes clock encoder schedule hardwareConcurrency
              b k Hne) as (r & Hrun & Hlen & [_ Hagg] & Hout).
  exists r. split; [done|]. cbn. unfold run_tasks in *.
  assert (count_status COMPLETED (Batch.tasks (run_batch r))
          = count_encoded encoder (Batch.tasks b)) as Hc.
  { apply count_completed_pointwise; [done|].
    intros i t t' Hi Hi'. destruct (Hout i t Hi) as (t'' & Ht'' & _ & Hrec).
    rewrite Hi' in Ht''. injection Ht'' as <-.
    destruct (encoder i (Task.file t)); simpl in *; destruct Hrec as [-> _]; done. }
  assert (all_terminal (Batch.tasks (run_batch r)) = true) as Hall.
  { apply all_terminal_lookup. intros i t' Hi'.
    destruct (lookup_lt_is_Some_2 (Batch.tasks b) i) as [t Hi].
    { rewrite <- Hlen. by eapply lookup_lt_Some. }
    destruct (Hout i t Hi) as (t'' & Ht'' & _ & Hrec).
    rewrite Hi' in Ht''. injection Ht'' as <-. by eapply recorded_terminal. }
  assert (count_status PENDING (Batch.tasks (run_batch r)) = 0%nat
          ∧ count_status PROCESSING (Batch.tasks (run_batch r)) = 0%nat) as [Hp Hq].
  { clear -Hall. unfold all_terminal, count_status in *.
    induction (Batch.tasks (run_batch r)) as [|t ts IH]; simpl in *; [done|].
    apply andb_prop in Hall as [Ht Hts]. destruct (IH Hts) as [IH1 IH2].
    apply is_terminal_spec in Ht. by destruct Ht as [-> | ->]. }
  pose proof (count_status_partition (Batch.tasks (run_batch r))) as Hpart.
  rewrite Hp, Hq in Hpart. repeat split; try done; try lia.
  - destruct (Hagg Hall) as [Hst _]. cbn in Hst. intros Hcomp.
    rewrite Hcomp in Hst. unfold some_failed in Hst.
    destruct (existsb _ _) eqn:Hex; [discriminate|].
    assert (count_status FAILED (Batch.tasks (run_batch r)) = 0%nat); [|lia].
    clear -Hex. unfold count_status, is_failed in *.
    induction (Batch.tasks (run_batch r)) as [|t ts IH]; simpl in *; [done|].
    apply orb_false_elim in Hex as [Ht Hts]. rewrite Ht. by apply IH.
  - destruct (Hagg Hall) as [Hst _]. cbn in Hst. intros Hcomp.
    rewrite Hst. unfold some_failed.
    assert (count_status FAILED (Batch.tasks (run_batch r)) = 0%nat) as Hz by lia.
    clear -Hz. unfold count_status, is_failed in *.
    induction (Batch.tasks (run_batch r)) as [|t ts IH]; simpl in *; [done|].
    destruct (bool_decide (Task.status t = FAILED)); simpl in *; [lia|].
    by rewrite (IH Hz).
Qed.

Lemma X4_statistics_after_run_witness :
  ∃ r, convertBatchTask clock0 encoder0 schedule0 (Some 2%nat) three_batch 5 = Some r
       ∧ st_completed (getBatchStatistics (run_batch r)) = 2%nat
       ∧ st_failed (getBatchStatistics (run_batch r)) = 1%nat.
Proof.
  destruct (X4_statistics_after_run clock0 encoder0 schedule0 (Some 2%nat)
              three_batch 5) as (r & Hr & Ht & _ & _ & Hc & Hf & _).
  { simpl. discriminate. }
  exists r. split; [exact Hr|]. rewrite Hf, Ht, Hc. split; reflexivity.
Defined.

(** ** The history store: deletion, clearing, counting, overwriting *)

Lemma ensure_open_spec p w r w1 :
  ensure_open p w = (r, w1) →
  objectStore w1 = objectStore w ∧ sys w1 = sys w
  ∧ match r with
    | Ok _ => db w1 = true ∧ heap w1 = (if db w then heap w else meanwhile p (heap w))
    | Throw e => e = rejection p "无法打开IndexDB数据库" ∧ db w = false
    end.
Proof.
  unfold ensure_open, init. destruct (db w) eqn:Hdb; [|destruct (open_ok p)];
    intros [= <- <-]; simpl; by rewrite ?Hdb.
Qed.

Lemma getHistoryById_open p id w :
  db w = true → request_ok p = true →
  (getHistoryById p id w).1 = Ok (StorageItem.data <$> objectStore w !! id).
Proof. intros Hdb Hreq. unfold getHistoryById, ensure_open. by rewrite Hdb, Hreq. Qed.

(** X5: a successful [deleteHistory] removes the record of that id and
    no other: afterwards [getHistoryById] returns null for the id and
    what was stored for every other id; deleting an id that is not in
    the store leaves the store as it was. *)
Theorem X5_delete_removes_one_record (p : Platform) (id : string) (w w' : World) :
  deleteHistory p id w = (Ok (), w') →
  (objectStore w !! id = None → objectStore w' = objectStore w)
  ∧ ∀ p' id', request_ok p' = true →
      (getHistoryById p' id' w').1
      = Ok (if decide (id' = id) then None
            else StorageItem.data <$> objectStore w !! id').
Proof.
  unfold deleteHistory. destruct (ensure_open p w) as [[[]|e] w1] eqn:Hopen;
    [|discriminate].
  destruct (ensure_open_spec _ _ _ _ Hopen) as (Hstore & _ & Hdb & _).
  destruct (request_ok p); [|discriminate]. intros [= <-]. split.
  - intros Hnone. cbn. rewrite Hstore. by apply delete_id.
  - intros p' id' Hreq. rewrite getHistoryById_open by done. cbn.
    rewrite Hstore, lookup_delete. by destruct (decide (id = id')), (decide (id' = id)).
Qed.

Lemma X5_delete_removes_one_record_witness :
  ∃ w', deleteHistory platform_ok "1700000000000-zk3m1x9qa" stored_world = (Ok (), w')
        ∧ (getHistoryById platform_ok "1700000000000-zk3m1x9qa" w').1 = Ok None
        ∧ (getStorageInfo platform_ok w').1
          = Ok {| info_count := 1; info_estimatedSize := 51200 |}.
Proof.
  eexists. split; [vm_compute; reflexivity|].
  match goal with
  | |- context [getHistoryById _ ?i ?x] =>
      destruct (X5_delete_removes_one_record platform_ok i stored_world x eq_refl)
        as [_ H]
  end.
  split; [|vm_compute; reflexivity].
  rewrite (H platform_ok _ eq_refl). by rewrite decide_True.
Defined.

Lemma indexScanPrev_length (m : gmap string StorageItem.t) :
  length (indexScanPrev m) = size m.
Proof.
  unfold indexScanPrev.
  by rewrite (merge_sort_Permutation index_prev (map_to_list m)), length_map_to_list.
Qed.

(** X6: after a successful [clearAllHistory] the store is empty: the
    listing is the empty list, the count and the size estimate are 0,
    and no id is found. *)
Theorem X6_clear_empties_store (p : Platform) (w w' : World) :
  clearAllHistory p w = (Ok (), w') →
  ∀ p', request_ok p' = true →
    (getAllHistory p' w').1 = Ok []
    ∧ (getStorageInfo p' w').1 = Ok {| info_count := 0; info_estimatedSize := 0 |}
    ∧ ∀ id, (getHistoryById p' id w').1 = Ok None.
Proof.
  unfold clearAllHistory. destruct (ensure_open p w) as [[[]|e] w1] eqn:Hopen;
    [|discriminate].
  destruct (ensure_open_spec _ _ _ _ Hopen) as (_ & _ & Hdb & _).
  destruct (request_ok p); [|discriminate]. intros [= <-] p' Hreq.
  unfold getAllHistory, getStorageInfo, getHistoryById, ensure_open, with_store.
  cbn [db objectStore]. rewrite Hdb, Hreq. cbn [fst].
  repeat split.
Qed.

Lemma X6_clear_empties_store_witness :
  ∃ w', clearAllHistory platform_ok stored_world = (Ok (), w')
        ∧ (getAllHistory platform_ok w').1 = Ok [].
Proof.
  eexists. split; [vm_compute; reflexivity|].
  match goal with
  | |- (getAllHistory _ ?x).1 = _ =>
      exact (proj1 (X6_clear_empties_store platform_ok stored_world x eq_refl
                      platform_ok eq_refl))
  end.
Defined.

(** X7: [getStorageInfo] counts what [getAllHistory] lists: on the same
    store the count is the number of records listed, and the size
    estimate is 50 KiB per record. *)
Theorem X7_info_counts_the_listing
    (p p' : Platform) (w w1 w2 : World) (info : StorageInfo)
    (recs : list (History.t Batch.t)) :
  getStorageInfo p w = (Ok info, w1) →
  getAllHistory p' w = (Ok recs, w2) →
  info_count info = length recs
  ∧ info_estimatedSize info = 51200 * Z.of_nat (length recs).
Proof.
  unfold getStorageInfo, getAllHistory.
  destruct (ensure_open p w) as [[[]|e] v1] eqn:Ho1; [|discriminate].
  destruct (ensure_open p' w) as [[[]|e] v2] eqn:Ho2; [|discriminate].
  destruct (ensure_open_spec _ _ _ _ Ho1) as (Hs1 & _).
  destruct (ensure_open_spec _ _ _ _ Ho2) as (Hs2 & _).
  destruct (request_ok p); [|discriminate].
  destruct (request_ok p'); [|discriminate].
  intros [= <- <-] [= <- <-]. cbn.
  rewrite length_map, indexScanPrev_length, Hs1, Hs2. split; [done | lia].
Qed.

Lemma X7_info_counts_the_listing_witness :
  ∃ info recs,
    (getStorageInfo platform_ok stored_world).1 = Ok info
    ∧ (getAllHistory platform_ok stored_world).1 = Ok recs
    ∧ info_count info = length recs ∧ info_count info = 2%nat.
Proof.
  destruct (getStorageInfo platform_ok stored_world) as [[info|e] w1] eqn:H1;
    [|vm_compute in H1; discriminate].
  destruct (getAllHistory platform_ok stored_world) as [[recs|e] w2] eqn:H2;
    [|vm_compute in H2; discriminate].
  exists info, recs. split; [reflexivity|]. split; [reflexivity|].
  destruct (X7_info_counts_the_listing _ _ _ _ _ _ _ H1 H2) as [Hc _].
  split; [exact Hc|]. vm_compute in H1. by injection H1 as <-.
Defined.

(** X8: saving under an id that is already in the store replaces the
    record: the number of records does not grow, and [getHistoryById]
    returns the clone taken at the later save. *)
Theorem X8_save_same_id_overwrites
    (clock : nat -> Z) (p1 p2 : Platform) (h1 h2 : History.t loc)
    (w w1 w2 : World) :
  saveHistory clock p1 h1 w = (Ok (), w1) →
  saveHistory clock p2 h2 w1 = (Ok (), w2) →
  History.id h1 = History.id h2 →
  size (objectStore w2) = size (objectStore w1)
  ∧ ∀ p', request_ok p' = true →
      (getHistoryById p' (History.id h2) w2).1
      = Ok (Some (structuredClone (heap w1) h2)).
Proof.
  intros H1 H2 Hid.
  destruct (saveHistory_ok _ _ _ _ _ H1) as (Hs1 & _ & Hdb1 & _).
  destruct (saveHistory_ok _ _ _ _ _ H2) as (Hs2 & _ & Hdb2 & _).
  rewrite Hdb1 in Hs2. split.
  - rewrite Hs2. apply map_size_insert_Some. rewrite Hs1, Hid, lookup_insert_eq.
    by eexists.
  - intros p' Hreq. rewrite getHistoryById_open by done.
    by rewrite Hs2, lookup_insert_eq.
Qed.

Lemma X8_save_same_id_overwrites_witness :
  ∃ w1 w2,
    saveHistory clock0 platform_ok (History.mk "r1" 0%nat 10) world0 = (Ok (), w1)
    ∧ saveHistory clock0 platform_ok (History.mk "r1" 1%nat 20) w1 = (Ok (), w2)
    ∧ size (objectStore w2) = size (objectStore w1).
Proof.
  eexists _, _. split; [vm_compute; reflexivity|]. split; [vm_compute; reflexivity|].
  match goal with
  | |- size (objectStore ?y) = size (objectStore ?x) =>
      exact (proj1 (X8_save_same_id_overwrites clock0 platform_ok platform_ok
                      (History.mk "r1" 0%nat 10) (History.mk "r1" 1%nat 20)
                      world0 x y eq_refl eq_refl eq_refl))
  end.
Defined.

(** X10: saving a record under an id that is not in the store and then
    deleting that id gives back the store from before the save. *)
Theorem X10_save_then_delete_restores
    (clock : nat -> Z) (p1 p2 : Platform) (h : History.t loc) (w w1 w2 : World) :
  objectStore w !! History.id h = None →
  saveHistory clock p1 h w = (Ok (), w1) →
  deleteHistory p2 (History.id h) w1 = (Ok (), w2) →
  objectStore w2 = objectStore w.
Proof.
  intros Hnone H1. destruct (saveHistory_ok _ _ _ _ _ H1) as (Hs1 & _ & Hdb1 & _).
  unfold deleteHistory, ensure_open. rewrite Hdb1.
  destruct (request_ok p2); [|discriminate]. intros [= <-]. cbn.
  rewrite Hs1. by apply delete_insert_id.
Qed.

Lemma X10_save_then_delete_restores_witness :
  ∃ w1 w2,
    saveHistory clock0 platform_ok (History.mk "r2" 0%nat 10) stored_world = (Ok (), w1)
    ∧ deleteHistory platform_ok "r2" w1 = (Ok (), w2)
    ∧ objectStore w2 = objectStore stored_world.
Proof.
  eexists _, _. split; [vm_compute; reflexivity|]. split; [vm_compute; reflexivity|].
  match goal with
  | |- objectStore ?y = _ =>
      eapply (X10_save_then_delete_restores clock0 platform_ok platform_ok
                (History.mk "r2" 0%nat 10) stored_world _ y);
        [vm_compute; reflexivity | vm_compute; reflexivity | vm_compute; reflexivity]
  end.
Defined.

(** ** Downloads *)

Lemma deliverable_spec t :
  deliverable t = true
  ↔ Task.status t = COMPLETED ∧ ∃ a c, Task.svgContent t = Some (String a c).
Proof.
  unfold deliverable, truthy. rewrite andb_true_iff, bool_decide_eq_true.
  destruct (Task.svgContent t) as [[|a c]|]; split; intros [H1 H2];
    try discriminate; try (by destruct H2 as (? & ? & ?)); eauto.
Qed.

Lemma downloadTaskSvg_deliverable dom_download t :
  deliverable t = true →
  ∃ content,
    Task.svgContent t = Some content
    ∧ downloadTaskSvg dom_download t
      = downloadFile dom_download
          {| dl_fileName := generateSvgFileName (file_name (Task.file t));
             dl_content := content;
             dl_mimeType := "image/svg+xml" |}.
Proof.
  intros H. apply deliverable_spec in H as (Hst & a & c & Hsvg).
  exists (String a c). split; [done|].
  unfold downloadTaskSvg. by rewrite Hst, Hsvg.
Qed.

Lemma downloadFile_not_refusal dom_download o e :
  downloadFile dom_download o = Throw e →
  e ≠ not_ready ∧ e ≠ nothing_to_download.
Proof.
  unfold downloadFile. destruct (dom_download o); [discriminate|].
  intros [= <-]. split; discriminate.
Qed.

(** X11: [downloadBatchSvg] refuses with its nothing-to-download error
    exactly when [getBatchDownloadInfo] reports [canDownload] false; the
    number of deliveries it attempts is the [availableFiles] the info
    reports, which never exceeds [totalFiles]. *)
Theorem X11_batch_download_agrees_with_info
    (dom_download : DownloadOptions -> bool) (b : Batch.t) :
  ((downloadBatchSvg dom_download b).1 = Throw nothing_to_download
   ↔ canDownload (getBatchDownloadInfo b) = false)
  ∧ length (downloadBatchSvg dom_download b).2 = availableFiles (getBatchDownloadInfo b)
  ∧ (availableFiles (getBatchDownloadInfo b) ≤ totalFiles (getBatchDownloadInfo b))%nat.
Proof.
  unfold downloadBatchSvg, getBatchDownloadInfo.
  cbn [canDownload availableFiles totalFiles].
  split; [|split; [|apply filter_length_le]].
  - destruct (List.filter deliverable (Batch.tasks b)) as [|t [|t' ts]] eqn:Hf;
      cbn; split; try done.
    intros H. exfalso.
    assert (deliverable t = true) as Ht.
    { assert (In t (List.filter deliverable (Batch.tasks b))) as Hin
        by (rewrite Hf; by left).
      by apply filter_In in Hin as [_ ?]. }
    destruct (downloadTaskSvg_deliverable dom_download t Ht) as (c & _ & Heq).
    rewrite Heq in H. by apply downloadFile_not_refusal in H as [_ ?].
  - destruct (List.filter deliverable (Batch.tasks b)) as [|t [|t' ts]]; cbn;
      try done. by rewrite length_imap.
Qed.

(** X12: [downloadBatchSvg] attempts one delivery per deliverable task,
    in the order of the tasks, and each attempt passes the guard of
    [downloadTaskSvg]: its outcome is that of [downloadFile] on the
    task's document.  With two or more deliverable tasks the call
    resolves whatever the deliveries did, the i-th attempt being delayed
    by 200 i milliseconds; with exactly one its outcome is that of the
    single delivery. *)
Theorem X12_batch_download_deliveries
    (dom_download : DownloadOptions -> bool) (b : Batch.t) :
  let '(o, ds) := downloadBatchSvg dom_download b in
  map dv_task ds = List.filter deliverable (Batch.tasks b)
  ∧ Forall (fun d =>
              ∃ content,
                Task.svgContent (dv_task d) = Some content
                ∧ dv_outcome d
                  = downloadFile dom_download
                      {| dl_fileName :=
                           generateSvgFileName (file_name (Task.file (dv_task d)));
                         dl_content := content;
                         dl_mimeType := "image/svg+xml" |}) ds
  ∧ ((2 ≤ length ds)%nat →
     o = Ok () ∧ ∀ i d, ds !! i = Some d → dv_delay d = (i * 200)%nat)
  ∧ (∀ d, ds = [d] → o = dv_outcome d).
Proof.
  unfold downloadBatchSvg.
  assert (Forall (fun t => deliverable t = true)
            (List.filter deliverable (Batch.tasks b))) as Hall.
  { apply Forall_forall. intros t Ht. apply list_elem_of_In in Ht.
    by apply filter_In in Ht as [_ ?]. }
  destruct (List.filter deliverable (Batch.tasks b)) as [|t [|t' ts]] eqn:Hf.
  - split; [done|]. split; [constructor|]. split; [simpl; lia | intros; discriminate].
  - split; [done|]. split; [|split; [simpl; lia | by intros d [= <-]]].
    constructor; [|constructor]. simpl.
    apply downloadTaskSvg_deliverable. by inversion Hall.
  - set (l := t :: t' :: ts) in *.
    split; [|split; [|split; [intros _; split; [done|] |]]].
    + apply list_eq. intros i. rewrite list_lookup_fmap, list_lookup_imap.
      by destruct (l !! i).
    + apply Forall_lookup. intros i d Hd. rewrite list_lookup_imap in Hd.
      destruct (l !! i) as [x|] eqn:Hx; [|discriminate]. injection Hd as <-.
      simpl. apply downloadTaskSvg_deliverable.
      by eapply (proj1 (Forall_lookup _ _) Hall).
    + intros i d Hd. rewrite list_lookup_imap in Hd.
      destruct (l !! i) as [x|]; [|discriminate]. by injection Hd as <-.
    + intros d Hd. apply (f_equal length) in Hd. rewrite length_imap in Hd.
      simpl in Hd. lia.
Qed.

(** X13: [previewSvg] and [downloadTaskSvg] refuse the same tasks: each
    throws the not-ready error exactly when the task is not completed or
    its document is absent or empty. *)
Theorem X13_preview_and_download_share_guard
    (dom_download : DownloadOptions -> bool) (window_open : string -> bool)
    (t : Task.t) :
  (previewSvg window_open t = Throw not_ready ↔ deliverable t = false)
  ∧ (downloadTaskSvg dom_download t = Throw not_ready ↔ deliverable t = false).
Proof.
  unfold previewSvg, downloadTaskSvg, deliverable, downloadFile.
  destruct (bool_decide (Task.status t = COMPLETED)); simpl; [|done].
  destruct (Task.svgContent t) as [[|a c]|]; simpl; try done.
  destruct (window_open _), (dom_download _); split; split; intros H;
    try discriminate; injection H as H; discriminate.
Qed.

(** ** File names and the generated document *)

Lemma app_cons c s t : String c s ++ t = String c (s ++ t).
Proof. reflexivity. Qed.

Lemma app_empty_l t : EmptyString ++ t = t.
Proof. reflexivity. Qed.

Lemma app_empty_r s : s ++ EmptyString = s.
Proof. induction s as [|c s IH]; [done|]. by rewrite app_cons, IH. Qed.

Lemma string_app_assoc s t u : (s ++ t) ++ u = s ++ (t ++ u).
Proof. induction s as [|c s IH]; [done|]. by rewrite !app_cons, IH. Qed.

Lemma has_char_app c s t : has_char c (s ++ t) = has_char c s || has_char c t.
Proof.
  induction s as [|a s IH]; [done|]. rewrite app_cons. simpl.
  by rewrite IH, orb_assoc.
Qed.

Lemma lastIndexOf_from_app c s1 : ∀ s2 i acc,
  lastIndexOf_from c (s1 ++ s2) i acc
  = lastIndexOf_from c s2 (i + String.length s1) (lastIndexOf_from c s1 i acc).
Proof.
  induction s1 as [|a s1 IH]; intros s2 i acc.
  - rewrite app_empty_l. simpl. by rewrite Nat.add_0_r.
  - rewrite app_cons. simpl. rewrite IH. f_equal. lia.
Qed.

Lemma lastIndexOf_from_absent c s : ∀ i acc,
  has_char c s = false → lastIndexOf_from c s i acc = acc.
Proof.
  induction s as [|a s IH]; intros i acc H; simpl in *; [done|].
  apply orb_false_elim in H as [Ha Hs]. rewrite Ha. by apply IH.
Qed.

Lemma substring_prefix s t : substring 0 (String.length s) (s ++ t) = s.
Proof.
  induction s as [|c s IH].
  - rewrite app_empty_l. by destruct t.
  - rewrite app_cons. cbn [String.length substring]. by rewrite IH.
Qed.

(** X14: [getFileNameWithoutExtension] cuts a name at its last dot: a
    name [base.ext] whose extension holds no dot gives [base] (also
    when [base] itself holds dots or is empty), and a name without a dot
    is returned whole; [generateSvgFileName] appends [.svg] to that. *)
Theorem X14_file_name_extension :
  (∀ base ext,
     has_char "."%char ext = false →
     getFileNameWithoutExtension (base ++ "." ++ ext) = base
     ∧ generateSvgFileName (base ++ "." ++ ext) = base ++ ".svg")
  ∧ (∀ name,
       has_char "."%char name = false →
       getFileNameWithoutExtension name = name
       ∧ generateSvgFileName name = name ++ ".svg").
Proof.
  assert (∀ base ext, has_char "."%char ext = false →
            getFileNameWithoutExtension (base ++ "." ++ ext) = base) as H1.
  { intros base ext Hext. unfold getFileNameWithoutExtension, lastIndexOf.
    rewrite lastIndexOf_from_app. rewrite app_cons, app_empty_l. simpl.
    rewrite lastIndexOf_from_absent by done.
    change (String "." ext) with ("." ++ ext). apply substring_prefix. }
  assert (∀ name, has_char "."%char name = false →
            getFileNameWithoutExtension name = name) as H2.
  { intros name Hn. unfold getFileNameWithoutExtension, lastIndexOf.
    by rewrite lastIndexOf_from_absent. }
  split.
  - intros base ext Hext. unfold generateSvgFileName. by rewrite H1.
  - intros name Hn. unfold generateSvgFileName. by rewrite H2.
Qed.

Lemma X14_file_name_extension_witness :
  generateSvgFileName "holiday.2024.jpeg" = "holiday.2024.svg"
  ∧ generateSvgFileName "scan" = "scan.svg".
Proof.
  destruct X14_file_name_extension as [H1 H2]. split.
  - exact (proj2 (H1 "holiday.2024" "jpeg" eq_refl)).
  - exact (proj2 (H2 "scan" eq_refl)).
Defined.

Lemma string_of_Z_chars (c : ascii) (z : Z) :
  has_char c "0123456789-" = false → has_char c (string_of_Z z) = false.
Proof.
  intros Hc. cbn [has_char] in Hc. rewrite !orb_false_r in Hc.
  repeat (apply orb_false_elim in Hc as [? Hc]).
  assert (∀ d, has_char c (DecimalString.NilEmpty.string_of_uint d) = false) as Hu.
  { induction d; cbn [DecimalString.NilEmpty.string_of_uint has_char];
      rewrite ?IHd, ?orb_false_r; done. }
  unfold string_of_Z, DecimalString.NilZero.string_of_int,
    DecimalString.NilZero.string_of_uint.
  destruct (Z.to_int z) as [[]|[]];
    cbn [DecimalString.NilEmpty.string_of_uint has_char];
    rewrite ?Hu, ?orb_false_r; rewrite ?Hc; done.
Qed.

Lemma getSubstitution_plain matched before after repl :
  has_char "$"%char repl = false →
  getSubstitution matched before after repl = repl.
Proof.
  induction repl as [|c rest IH]; simpl; [done|]. intros H.
  apply orb_false_elim in H as [Hc Hrest]. rewrite Hc. by rewrite IH.
Qed.

Lemma replace_from_before pat repl :
  has_char "$"%char repl = false →
  ∀ s b1 b2 k, replace_from pat repl b1 k s = replace_from pat repl b2 k s.
Proof.
  intros Hrepl. induction s as [|c s IH]; intros b1 b2 k; simpl; [done|].
  destruct k as [|k]; [|apply IH].
  rewrite !(getSubstitution_plain _ _ _ _ Hrepl).
  rewrite (IH (b1 +:+ String c EmptyString) (b2 +:+ String c EmptyString)).
  rewrite (IH (b1 +:+ String c EmptyString) (b2 +:+ String c EmptyString) 0%nat).
  reflexivity.
Qed.

Lemma prefix_app p r : String.prefix p (p ++ r) = true.
Proof.
  induction p as [|c p IH]; [by destruct r|]. rewrite app_cons. simpl.
  by destruct (ascii_dec c c).
Qed.

Lemma string_drop_app p r : string_drop (String.length p) (p ++ r) = r.
Proof. induction p as [|c p IH]; [done|]. by rewrite app_cons. Qed.

Lemma replace_from_skip pat repl rest p : ∀ b,
  replace_from pat repl b (String.length p) (p ++ rest)
  = replace_from pat repl (b ++ p) 0 rest.
Proof.
  induction p as [|c p IH]; intros b.
  - by rewrite app_empty_l, app_empty_r.
  - rewrite app_cons. cbn [String.length replace_from]. rewrite IH.
    by rewrite string_app_assoc.
Qed.

Section Replace.

Variables (c : ascii) (p repl : string).
Hypothesis repl_plain : has_char "$"%char repl = false.

(** A match of the pattern is replaced and the scan goes on behind it. *)
Lemma replace_match b rest :
  replace_from (String c p) repl b 0 (String c p ++ rest)
  = repl ++ replace_from (String c p) repl b 0 rest.
Proof.
  rewrite app_cons. cbn [replace_from].
  change (String c (p ++ rest)) with (String c p ++ rest).
  rewrite prefix_app, (getSubstitution_plain _ _ _ _ repl_plain).
  cbn [String.length Nat.pred]. rewrite replace_from_skip.
  f_equal. by apply replace_from_before.
Qed.

(** A text that does not hold the first character of the pattern is
    passed unchanged. *)
Lemma replace_pass s : ∀ b rest,
  has_char c s = false →
  replace_from (String c p) repl b 0 (s ++ rest)
  = s ++ replace_from (String c p) repl b 0 rest.
Proof.
  induction s as [|a s IH]; intros b rest Hs; [done|].
  simpl in Hs. apply orb_false_elim in Hs as [Ha Hs].
  rewrite !app_cons. cbn [replace_from String.prefix].
  destruct (ascii_dec c a) as [->|_]; [by rewrite Ascii.eqb_refl in Ha|].
  f_equal. rewrite IH by done. f_equal. by apply replace_from_before.
Qed.

Lemma replace_end s b :
  has_char c s = false → replace_from (String c p) repl b 0 s = s.
Proof.
  intros Hs. rewrite <- (app_empty_r s) at 1. rewrite replace_pass by done.
  by rewrite app_empty_r.
Qed.

End Replace.

(** One placeholder is passed by the scan for another. *)
Lemma replace_other_placeholder pat repl other b rest :
  has_char "$"%char repl = false →
  (pat, other) ∈ [ ("{{width}}", "{{height}}"); ("{{width}}", "{{base64}}");
                   ("{{height}}", "{{base64}}") ] →
  replace_from pat repl b 0 (other ++ rest)
  = other ++ replace_from pat repl b 0 rest.
Proof.
  intros Hrepl Hin.
  repeat (apply elem_of_cons in Hin as [[= -> ->] | Hin]);
    [| | |by apply elem_of_nil in Hin];
    rewrite !app_cons, app_empty_l; simpl; repeat f_equal;
    by apply replace_from_before.
Qed.

Ltac in_list := repeat (apply elem_of_cons; first [by left | right]).

Ltac fill_template :=
  repeat first
    [ rewrite replace_match by assumption
    | rewrite replace_other_placeholder by first [assumption | in_list]
    | rewrite replace_pass by first [assumption | reflexivity]
    | rewrite replace_end by first [assumption | reflexivity] ].

Lemma fill_width W :
  has_char "$"%char W = false →
  js_replace_all "{{width}}" W (svg_document "{{width}}" "{{height}}" "{{base64}}")
  = svg_document W "{{height}}" "{{base64}}".
Proof.
  intros HW. unfold js_replace_all, svg_document. fill_template. reflexivity.
Qed.

Lemma fill_height W H :
  has_char "$"%char H = false → has_char "{"%char W = false →
  js_replace_all "{{height}}" H (svg_document W "{{height}}" "{{base64}}")
  = svg_document W H "{{base64}}".
Proof.
  intros HH HW. unfold js_replace_all, svg_document. fill_template. reflexivity.
Qed.

Lemma fill_base64 W H B :
  has_char "$"%char B = false →
  has_char "{"%char W = false → has_char "{"%char H = false →
  js_replace_all "{{base64}}" B (svg_document W H "{{base64}}")
  = svg_document W H B.
Proof.
  intros HB HW HH.
  unfold js_replace_all, svg_document. fill_template. reflexivity.
Qed.

Lemma strip_zeros_chars c s :
  has_char c s = false → has_char c (strip_zeros s) = false.
Proof.
  induction s as [|a s IH]; [done|]. cbn [has_char strip_zeros]. intros H.
  apply orb_false_elim in H as [Ha Hs]. specialize (IH Hs).
  destruct (strip_zeros s) as [|b r].
  - destruct (Ascii.eqb a "0"); [done|]. cbn [has_char]. by rewrite Ha.
  - cbn [has_char] in *. by rewrite Ha, IH.
Qed.

Lemma print_digits_chars c v :
  has_char c "0123456789-.e+" = false → has_char c (print_digits v) = false.
Proof.
  intros Hc.
  assert (has_char c "0123456789-" = false ∧ Ascii.eqb "."%char c = false
          ∧ Ascii.eqb "e"%char c = false ∧ Ascii.eqb "+"%char c = false)
    as (Hd & Hdot & He & Hplus).
  { cbn [has_char] in *. rewrite !orb_false_r in Hc.
    repeat (apply orb_false_elim in Hc as [? Hc]).
    repeat split; rewrite ?orb_false_r; try done.
    repeat (apply orb_false_intro; [done|]). done. }
  unfold print_digits. destruct (Z.ltb v (10 ^ 21)); [by apply string_of_Z_chars|].
  unfold exponent_form.
  pose proof (strip_zeros_chars c _ (string_of_Z_chars c v Hd)) as Hs.
  pose proof (string_of_Z_chars c
                (Z.of_nat (pred (String.length (string_of_Z v)))) Hd) as Hx.
  destruct (strip_zeros (string_of_Z v)) as [|d [|d' rest]];
    [by apply string_of_Z_chars| |];
    cbn [has_char] in Hs; apply orb_false_elim in Hs as [Hs1 Hs2];
    rewrite !app_cons, ?app_empty_l; cbn [has_char];
    rewrite ?has_char_app; cbn [has_char];
    rewrite ?Hs1, ?Hdot, ?He, ?Hplus, ?Hx, ?orb_false_l, ?orb_false_r; done.
Qed.

Lemma Number_toString_chars c z :
  has_char c "0123456789-.e+" = false → has_char c (Number_toString z) = false.
Proof.
  intros Hc. unfold Number_toString. destruct (Z.ltb z 0).
  - rewrite has_char_app, (print_digits_chars _ _ Hc), orb_false_r.
    cbn [has_char] in *. rewrite !orb_false_r in Hc.
    repeat (apply orb_false_elim in Hc as [? Hc]). by rewrite orb_false_r.
  - by apply print_digits_chars.
Qed.

(** Below 2^53 every multiple of a power of ten other than the number
    itself rounds to itself, or to something above the number. *)
Lemma shortest_from_safe z :
  0 < z < 2 ^ 53 → ∀ fuel scale, 0 <= scale → shortest_from fuel scale z = z.
Proof.
  intros [Hz Hlt].
  assert (binary64 (inject_Z (2 ^ 53)) == inject_Z (2 ^ 53))%Q as Htop
    by (vm_compute; reflexivity).
  induction fuel as [|fuel IH]; intros scale Hs; [reflexivity|].
  cbn [shortest_from].
  set (lo := z / scale * scale). set (hi := lo + scale).
  assert (0 <= lo <= z) as Hlo.
  { unfold lo. destruct (Z.eq_dec scale 0) as [-> | Hne]; [rewrite Z.mul_0_r; lia|].
    split; [apply Z.mul_nonneg_nonneg; [apply Z.div_pos|]; lia|].
    rewrite Z.mul_comm. apply Z.mul_div_le. lia. }
  assert (hi ≠ z) as Hhi.
  { unfold hi, lo. destruct (Z.eq_dec scale 0) as [-> | Hne]; [rewrite Z.mul_0_r; lia|].
    pose proof (Z.mod_pos_bound z scale ltac:(lia)) as Hm.
    pose proof (Z.div_mod z scale Hne) as Hd. lia. }
  assert (0 <= hi) as Hhi0 by (unfold hi; lia).
  assert (Qeq_bool (binary64 (inject_Z hi)) (inject_Z z) = false) as ->.
  { destruct (Qeq_bool _ _) eqn:E; [|done]. exfalso. apply Qeq_bool_eq in E.
    destruct (Z_lt_le_dec hi (2 ^ 53)) as [Hsmall | Hbig].
    - rewrite binary64_Z in E by lia.
      exact (Hhi (proj1 (inject_Z_injective hi z) E)).
    - assert (inject_Z (2 ^ 53) <= binary64 (inject_Z hi))%Q as Hm.
      { rewrite <- Htop. apply binary64_mono; [discriminate|].
        rewrite <- Zle_Qle. exact Hbig. }
      rewrite E in Hm. rewrite <- Zle_Qle in Hm. lia. }
  rewrite andb_false_r.
  destruct (Qeq_bool (binary64 (inject_Z lo)) (inject_Z z)) eqn:E.
  - apply Qeq_bool_eq in E. rewrite binary64_Z in E by lia.
    exact (proj1 (inject_Z_injective lo z) E).
  - apply IH. apply Z.div_pos; lia.
Qed.

(** Up to 2^53 in magnitude an integer prints as its decimal digits. *)
Lemma Number_toString_safe z :
  Z.abs z < 2 ^ 53 → Number_toString z = string_of_Z z.
Proof.
  intros Hz. unfold Number_toString.
  assert (∀ v, 0 <= v < 2 ^ 53 → print_digits (shortest v) = string_of_Z v) as Hp.
  { intros v Hv. assert (shortest v = v) as ->.
    { destruct (Z.eq_dec v 0) as [-> | Hne]; [reflexivity|].
      unfold shortest. apply shortest_from_safe; [lia|].
      apply Z.pow_nonneg. lia. }
    unfold print_digits.
    destruct (Z.ltb_spec v (10 ^ 21)) as [_ | Hbig]; [done|].
    assert (2 ^ 53 < 10 ^ 21) by reflexivity. lia. }
  destruct (Z.ltb_spec z 0) as [Hneg | Hpos].
  - rewrite Hp by lia. destruct z as [|q|q]; try lia. reflexivity.
  - apply Hp. lia.
Qed.

(** X15: for a data URL without a dollar sign, [generateSvg] returns the
    template with the width, the height and the data URL in place of
    every placeholder, and nothing else changed; the width and the
    height stand there as [toString] prints them, which for integers
    below 2^53 in magnitude is in decimal digits. *)
Theorem X15_generateSvg_fills_template (params : ImageInfo) :
  has_char "$"%char (img_base64 params) = false →
  generateSvg params
  = svg_document (Number_toString (img_width params))
      (Number_toString (img_height params)) (img_base64 params)
  ∧ (Z.abs (img_width params) < 2 ^ 53 → Z.abs (img_height params) < 2 ^ 53 →
     generateSvg params
     = svg_document (string_of_Z (img_width params))
         (string_of_Z (img_height params)) (img_base64 params)).
Proof.
  intros HB.
  assert (generateSvg params
          = svg_document (Number_toString (img_width params))
              (Number_toString (img_height params)) (img_base64 params)) as Hgen.
  { unfold generateSvg.
    assert (SVG_TEMPLATE = svg_document "{{width}}" "{{height}}" "{{base64}}") as ->
      by (vm_compute; reflexivity).
    assert (∀ c z, has_char c "0123456789-.e+" = false →
                   has_char c (Number_toString z) = false) as Hz
      by (intros; by apply Number_toString_chars).
    rewrite fill_width by (by apply Hz).
    rewrite fill_height by (by apply Hz).
    apply fill_base64; [done | by apply Hz | by apply Hz]. }
  split; [exact Hgen|]. intros Hw Hh.
  by rewrite Hgen, !Number_toString_safe.
Qed.

Lemma X15_generateSvg_fills_template_witness :
  generateSvg {| img_width := 640; img_height := 480;
                 img_base64 := "data:image/png;base64,iVBORw0KGgo=" |}
  = svg_document "640" "480" "data:image/png;base64,iVBORw0KGgo=".
Proof.
  exact (proj2 (X15_generateSvg_fills_template
                  {| img_width := 640; img_height := 480;
                     img_base64 := "data:image/png;base64,iVBORw0KGgo=" |} eq_refl)
           eq_refl eq_refl).
Defined.

Lemma replace_head c p repl b a s :
  Ascii.eqb a c = false →
  replace_from (String c p) repl b 0 (String a s)
  = String a (replace_from (String c p) repl (b ++ String a EmptyString) 0 s).
Proof.
  intros Ha. cbn [replace_from String.prefix].
  destruct (ascii_dec c a) as [->|_]; [by rewrite Ascii.eqb_refl in Ha | done].
Qed.

Lemma generateSvg_nonempty params : ∃ s, generateSvg params = String "<"%char s.
Proof.
  assert (∃ t, SVG_TEMPLATE = String "<"%char t) as [t Ht]
    by (eexists; vm_compute; reflexivity).
  unfold generateSvg, js_replace_all. rewrite Ht.
  rewrite !replace_head by reflexivity. by eexists.
Qed.

(** X16: a task converted with [convertFileToSvg] as its encoder ends
    either completed with a non-empty document, which [downloadTaskSvg]
    accepts and hands to [downloadFile], or failed with one of the three
    messages of the reader and the image loader as its error. *)
Theorem X16_encoded_task_is_deliverable
    (fileReader : File -> ReadOutcome) (imageLoad : string -> option (Z * Z))
    (clock : nat -> Z) (cancelled : bool) (t : Task.t) (i k : nat) :
  let t' := converted clock cancelled
              (svgEncoder fileReader imageLoad i (Task.file t)) t k in
  (Task.status t' = COMPLETED
   ∧ deliverable t' = true
   ∧ ∀ dom_download, ∃ content,
       downloadTaskSvg dom_download t'
       = downloadFile dom_download
           {| dl_fileName := generateSvgFileName (file_name (Task.file t));
              dl_content := content; dl_mimeType := "image/svg+xml" |})
  ∨ (Task.status t' = FAILED
     ∧ Task.error t' ∈ [ Some "文件读取结果不是字符串格式";
                         Some "无法读取文件内容";
                         Some "无法加载图片以获取尺寸信息" ]).
Proof.
  unfold svgEncoder, convertFileToSvg, getImageInfo, fileToBase64.
  destruct cancelled;
    (destruct (fileReader (Task.file t)) as [dataUrl| |];
       [destruct (imageLoad dataUrl) as [[w h]|] |..]; cbn;
       try (right; split; [done|in_list]));
  left; (split; [done|]);
  destruct (generateSvg_nonempty
              {| img_width := w; img_height := h; img_base64 := dataUrl |})
    as [s Hs];
  unfold deliverable, downloadTaskSvg; cbn; rewrite Hs; cbn;
  (split; [done|]); intros dom; by eexists.
Qed.

(** ** The upload component *)

Lemma validateFiles_spec files :
  (validateFiles files).1
  = List.filter (fun f => validateImageFile f && (file_size f <=? maxSize)%Z) files
  ∧ length (validateFiles files).2
    = length (List.filter
                (fun f => negb (validateImageFile f && (file_size f <=? maxSize)%Z))
                files)
  ∧ Forall (fun e => e ≠ EmptyString) (validateFiles files).2.
Proof.
  induction files as [|f rest IH]; simpl; [repeat split; constructor|].
  destruct (validateFiles rest) as [vs es]. simpl in IH.
  destruct IH as (IH1 & IH2 & IH3). unfold validateFile.
  destruct (validateImageFile f); simpl.
  - rewrite Z.gtb_ltb. destruct (Z.ltb_spec maxSize (file_size f)) as [Hlt|Hle].
    + destruct (Z.leb_spec (file_size f) maxSize); [lia|]. simpl.
      repeat split; [done | by rewrite IH2 | by constructor].
    + destruct (Z.leb_spec (file_size f) maxSize); [|lia]. simpl.
      repeat split; [by rewrite IH1 | done | done].
  - repeat split; [done | by rewrite IH2 | by constructor].
Qed.

Lemma join_nonempty sep e es :
  e ≠ EmptyString → join sep (e :: es) ≠ EmptyString.
Proof. destruct e; [done|]. intros _. by destruct es. Qed.

Lemma acceptable_spec f :
  validateImageFile f && (file_size f <=? maxSize)%Z = true ↔ acceptable f.
Proof.
  unfold acceptable. rewrite andb_true_iff, Z.leb_le. done.
Qed.

Lemma handleFilesChange_spec (files : list File) (st : UploadState) :
  let '(st', notified) := handleFilesChange files st in
  ∃ added,
    selectedFiles st' = (selectedFiles st ++ added)%list
    ∧ Forall (fun f => f ∈ files ∧ acceptable f
                       ∧ ∀ e, e ∈ selectedFiles st → sameFile e f = false) added
    ∧ notified = (if added is [] then None else Some (selectedFiles st'))
    ∧ (uploadError st' = EmptyString ↔ Forall acceptable files)
    ∧ added = List.filter (appended (selectedFiles st)) files.
Proof.
  unfold handleFilesChange.
  destruct (validateFiles files) as [validFiles errors] eqn:Hv.
  destruct (validateFiles_spec files) as (Hvalid & Herrs & Hne).
  rewrite Hv in Hvalid, Herrs, Hne. simpl in Hvalid, Herrs, Hne.
  set (newFiles := List.filter _ validFiles).
  assert (Forall (fun f => f ∈ files ∧ acceptable f
                           ∧ ∀ e, e ∈ selectedFiles st → sameFile e f = false)
            newFiles) as Hnew.
  { apply Forall_forall. intros f Hf. apply list_elem_of_In in Hf.
    apply filter_In in Hf as [Hf Hdup]. rewrite Hvalid in Hf.
    apply filter_In in Hf as [Hf Hok]. apply acceptable_spec in Hok.
    split; [by apply list_elem_of_In|]. split; [done|].
    intros e He. apply negb_true_iff in Hdup.
    destruct (sameFile e f) eqn:Hs; [|done].
    assert (existsb (fun existingFile => sameFile existingFile f) (selectedFiles st)
            = true) as Hex; [|congruence].
    apply existsb_exists. exists e. split; [by apply list_elem_of_In | done]. }
  assert ((if (0 <? length errors)%nat then join "; " errors else EmptyString)
          = EmptyString ↔ Forall acceptable files) as Herr.
  { destruct errors as [|e es]; simpl.
    - split; [intros _|done]. apply Forall_forall. intros f Hf.
      apply acceptable_spec. destruct (validateImageFile f && _) eqn:Hok; [done|].
      exfalso. apply list_elem_of_In in Hf.
      assert (In f (List.filter
                (fun f => negb (validateImageFile f && (file_size f <=? maxSize)%Z))
                files)) as Hin by (apply filter_In; by rewrite Hok).
      simpl in Herrs. symmetry in Herrs. apply length_zero_iff_nil in Herrs.
      by rewrite Herrs in Hin.
    - split.
      + intros H. exfalso. revert H. apply join_nonempty. by inversion Hne.
      + intros Hall. exfalso.
        assert (List.filter
                  (fun f => negb (validateImageFile f && (file_size f <=? maxSize)%Z))
                  files = []) as Hnil.
        { clear -Hall. induction Hall as [|f fs Hf _ IH]; simpl; [done|].
          apply acceptable_spec in Hf. by rewrite Hf. }
        rewrite Hnil in Herrs. discriminate. }
  assert (newFiles = List.filter (appended (selectedFiles st)) files) as Hexact.
  { unfold newFiles. rewrite Hvalid. clear.
    induction files as [|f fs IH]; simpl; [done|]. unfold appended at 1.
    destruct (validateImageFile f && (file_size f <=? maxSize)%Z); simpl;
      [|exact IH].
    destruct (negb _); simpl; by rewrite IH. }
  destruct newFiles as [|f fs] eqn:Hn; simpl.
  - exists []. rewrite app_nil_r.
    split; [done|]. split; [constructor|]. split; [done|]. split; [exact Herr | done].
  - exists (f :: fs).
    split; [done|]. split; [exact Hnew|]. split; [done|]. split; [exact Herr | done].
Qed.

Lemma appended_spec existing f :
  appended existing f = true
  ↔ acceptable f ∧ ∀ e, e ∈ existing → sameFile e f = false.
Proof.
  unfold appended. rewrite andb_true_iff, acceptable_spec, negb_true_iff.
  split; intros [Hok Hnew]; (split; [exact Hok|]).
  - intros e He. destruct (sameFile e f) eqn:Hs; [|done].
    assert (existsb (fun e => sameFile e f) existing = true) as Hex; [|congruence].
    apply existsb_exists. exists e. split; [by apply list_elem_of_In | done].
  - destruct (existsb (fun e => sameFile e f) existing) eqn:Hex; [|done].
    apply existsb_exists in Hex as (e & He & Hs).
    apply list_elem_of_In in He. by rewrite (Hnew e He) in Hs.
Qed.

(** X17: [handleFilesChange] keeps the files already selected, in their
    order, and appends exactly the dropped files that are supported, at
    most 10 MiB and not already selected under the same name and size,
    in the order in which they were dropped (a file dropped twice in one
    go is appended twice); [onFilesSelected] is called, with the new
    selection, exactly when a file was added; and the error text is
    empty exactly when every dropped file was supported and small
    enough. *)
Theorem X17_handleFilesChange_selection (files : list File) (st : UploadState) :
  let '(st', notified) := handleFilesChange files st in
  ∃ added,
    selectedFiles st' = (selectedFiles st ++ added)%list
    ∧ added = List.filter (appended (selectedFiles st)) files
    ∧ (∀ f, appended (selectedFiles st) f = true
            ↔ acceptable f ∧ ∀ e, e ∈ selectedFiles st → sameFile e f = false)
    ∧ notified = (if added is [] then None else Some (selectedFiles st'))
    ∧ (uploadError st' = EmptyString ↔ Forall acceptable files).
Proof.
  pose proof (handleFilesChange_spec files st) as H.
  destruct (handleFilesChange files st) as [st' notified].
  destruct H as (added & H1 & _ & H3 & H4 & H5).
  exists added. split; [exact H1|]. split; [exact H5|].
  split; [apply appended_spec|]. split; [exact H3 | exact H4].
Qed.

Lemma imap_shift {A} (k : nat) (l : list A) :
  imap ((fun i f => ((k + i)%nat, f)) ∘ S) l = imap (fun i f => ((S k + i)%nat, f)) l.
Proof. apply imap_ext. intros i y _. simpl. f_equal. lia. Qed.

Lemma filter_index_above {A} (m : nat) (l : list A) : ∀ k,
  (m < k)%nat →
  map snd (List.filter (fun '(i, _) => negb (Nat.eqb i m))
             (imap (fun i f => ((k + i)%nat, f)) l))
  = l.
Proof.
  induction l as [|x l IH]; intros k Hk; [done|].
  rewrite imap_cons, imap_shift. cbn [List.filter].
  replace (k + 0 =? m)%nat with false by (symmetry; apply Nat.eqb_neq; lia).
  cbn [negb map snd]. f_equal. apply IH. lia.
Qed.

Lemma removeFile_delete {A} (l : list A) : ∀ index k,
  map snd (List.filter (fun '(i, _) => negb (Nat.eqb i (k + index)))
             (imap (fun i f => ((k + i)%nat, f)) l))
  = delete index l.
Proof.
  induction l as [|x l IH]; intros index k; [by destruct index|].
  rewrite imap_cons, imap_shift. cbn [List.filter].
  destruct index as [|index].
  - rewrite Nat.eqb_refl. cbn [negb delete list_delete].
    rewrite Nat.add_0_r. apply filter_index_above. lia.
  - replace (k + 0 =? k + S index)%nat with false
      by (symmetry; apply Nat.eqb_neq; lia).
    cbn [negb map snd delete list_delete]. f_equal.
    replace (k + S index)%nat with (S k + index)%nat by lia. apply IH.
Qed.

(** X18: [removeFile] removes exactly the file at the given position and
    keeps the others in order (an index past the end removes nothing);
    and each of [handleFilesChange], [removeFile] and [clearAllFiles]
    keeps the selection free of unsupported and oversize files and hands
    on the new selection itself, so that [createBatchTask] accepts every
    selection the component hands on. *)
Theorem X18_selection_stays_acceptable
    (files : list File) (index : nat) (st st' : UploadState)
    (notified : option (list File)) :
  Forall acceptable (selectedFiles st) →
  handleFilesChange files st = (st', notified)
  ∨ removeFile index st = (st', notified)
  ∨ clearAllFiles st = (st', notified) →
  selectedFiles (removeFile index st).1 = delete index (selectedFiles st)
  ∧ Forall acceptable (selectedFiles st')
  ∧ ∀ handed, notified = Some handed →
      handed = selectedFiles st'
      ∧ ∀ clock random36 s, ∃ b s',
          createBatchTask clock random36 handed s = (Ok b, s')
          ∧ map Task.file (Batch.tasks b) = handed.
Proof.
  intros Hst Hop.
  assert (selectedFiles (removeFile index st).1 = delete index (selectedFiles st))
    as Hrm.
  { unfold removeFile. cbn [fst selectedFiles].
    apply (removeFile_delete (selectedFiles st) index 0%nat). }
  split; [exact Hrm|].
  assert (∀ l, Forall acceptable l → ∀ clock random36 s, ∃ b s',
            createBatchTask clock random36 l s = (Ok b, s')
            ∧ map Task.file (Batch.tasks b) = l) as Hcreate.
  { intros l Hl clock random36 s. unfold createBatchTask.
    pose proof (createTasks_spec clock random36 l s) as H.
    destruct (createTasks clock random36 l s) as [[ts|e] s1].
    - destruct H as (_ & Hfiles & _). by eexists _, _.
    - destruct H as (pre & f & post & -> & _ & Hf & _).
      apply Forall_app in Hl as [_ Hl]. apply Forall_cons in Hl as [[Hf' _] _].
      congruence. }
  assert (Forall acceptable (selectedFiles st')
          ∧ ∀ handed, notified = Some handed → handed = selectedFiles st') as [H1 H2].
  { destruct Hop as [Hop | [Hop | Hop]].
    - pose proof (handleFilesChange_spec files st) as X. rewrite Hop in X.
      destruct X as (added & Hsel & Hadded & Hnot & _). split.
      + rewrite Hsel. apply Forall_app. split; [done|].
        eapply Forall_impl; [exact Hadded|]. by intros f (_ & ? & _).
      + intros handed ->. destruct added; [done|]. by injection Hnot as ->.
    - rewrite Hop in Hrm. cbn [fst] in Hrm. split.
      + rewrite Hrm. apply Forall_forall. intros f Hf.
        apply list_elem_of_delete_inv in Hf.
        by eapply (proj1 (Forall_forall _ _) Hst).
      + unfold removeFile in Hop. injection Hop as <- <-. by intros handed [= <-].
    - unfold clearAllFiles in Hop. injection Hop as <- <-.
      split; [constructor | by intros handed [= <-]]. }
  split; [done|]. intros handed Hh. rewrite (H2 handed Hh).
  split; [done|]. by apply Hcreate.
Qed.

Lemma X18_selection_stays_acceptable_witness :
  selectedFiles
    (removeFile 1 {| selectedFiles := [png "a.png" 5; png "b.png" 6; png "c.png" 7];
                     uploadError := EmptyString |}).1
  = [png "a.png" 5; png "c.png" 7].
Proof.
  refine (proj1 (X18_selection_stays_acceptable [] 1%nat
                   {| selectedFiles := [png "a.png" 5; png "b.png" 6; png "c.png" 7];
                      uploadError := EmptyString |}
                   {| selectedFiles := []; uploadError := EmptyString |}
                   (Some []) _ _)).
  - repeat constructor; vm_compute; congruence.
  - right. right. reflexivity.
Defined.


(** ** The page handlers *)

(** X19: the cancel handler of the page acts only on a batch that is
    still processing, so it leaves a batch that [convertBatchTask] has
    finished as it is: the status stays [COMPLETED] or [FAILED] as the
    run set it, and no task is touched. *)
Theorem X19_cancel_handler_spares_finished_batch
    (clock : nat -> Z) (encoder : nat -> File -> EncodeOutcome)
    (schedule : list nat -> nat) (hardwareConcurrency : option nat)
    (b : Batch.t) (k : nat) :
  Batch.tasks b ≠ [] →
  ∃ r, convertBatchTask clock encoder schedule hardwareConcurrency b k = Some r
       ∧ Batch.status (run_batch r)
         = (if some_failed (run_tasks r) then FAILED else COMPLETED)
       ∧ ∀ isConverting,
           handleCancelConversion (run_batch r) isConverting
           = (run_batch r, isConverting).
Proof.
  intros Hne.
  destruct (convertBatchTask_outcomes clock encoder schedule hardwareConcurrency
              b k Hne) as (r & Hrun & Hlen & [_ Hagg] & Hout).
  exists r. split; [done|].
  assert (all_terminal (run_tasks r) = true) as Hall.
  { apply all_terminal_lookup. intros i t' Hi'.
    destruct (lookup_lt_is_Some_2 (Batch.tasks b) i) as [t Hi].
    { rewrite <- Hlen. by eapply lookup_lt_Some. }
    destruct (Hout i t Hi) as (t'' & Ht'' & _ & Hrec).
    rewrite Hi' in Ht''. injection Ht'' as <-. by eapply recorded_terminal. }
  destruct (Hagg Hall) as [Hst _]. cbn [snd] in Hst. split; [exact Hst|].
  intros c. unfold handleCancelConversion. rewrite Hst.
  by destruct (some_failed _).
Qed.

Lemma X19_cancel_handler_spares_finished_batch_witness :
  ∃ r, convertBatchTask clock0 encoder0 schedule0 (Some 2%nat) three_batch 5 = Some r
       ∧ handleCancelConversion (run_batch r) true = (run_batch r, true).
Proof.
  destruct (X19_cancel_handler_spares_finished_batch clock0 encoder0 schedule0
              (Some 2%nat) three_batch 5) as (r & Hr & _ & Hc).
  { simpl. discriminate. }
  exists r. split; [exact Hr | exact (Hc true)].
Defined.



(** ** Progress never goes back *)

Lemma count_terminal_alter_ge (f : Task.t → Task.t) (i : nat) : ∀ l,
  (∀ t, l !! i = Some t → is_terminal (Task.status t) = true →
        is_terminal (Task.status (f t)) = true) →
  (count_terminal l ≤ count_terminal (alter f i l))%nat.
Proof.
  unfold count_terminal. revert i.
  intros i l. revert i. induction l as [|x l IH]; intros i H; [done|].
  destruct i as [|i]; simpl.
  - destruct (is_terminal (Task.status x)) eqn:Hx.
    + by rewrite (H x eq_refl Hx).
    + destruct (is_terminal (Task.status (f x))); simpl; lia.
  - specialize (IH i (fun t Ht => H t Ht)).
    change (list_alter f i l) with (alter f i l).
    destruct (is_terminal (Task.status x)); simpl; lia.
Qed.

Section Advancing.

Variable clock : nat -> Z.
Variable encoder : nat -> File -> EncodeOutcome.
Variable schedule : list nat -> nat.

Lemma advancing_weaken U U' r : (U ≤ U')%nat → advancing U r → advancing U' r.
Proof.
  intros HU (Ha & Hs & Hf). split; [|done].
  intros j t Hj. apply Ha. lia.
Qed.

Lemma advancing_upd U U' i f r :
  advancing U r → (i < U')%nat → (U ≤ U')%nat →
  (∀ t, run_tasks r !! i = Some t → is_terminal (Task.status t) = true →
        is_terminal (Task.status (f t)) = true) →
  advancing U' (upd_task i f r).
Proof.
  intros (Ha & Hs & Hf) Hi HU Hsafe. unfold advancing, run_tasks in *.
  rewrite tasks_upd_task. cbn [run_batchLog upd_task upd_batch].
  split; [|split; [done|]].
  - intros j t Hj. rewrite list_lookup_alter_ne by lia. apply Ha. lia.
  - eapply Forall_impl; [exact Hf|]. intros ev Hev. cbn beta in *.
    pose proof (count_terminal_alter_ge f i _ Hsafe). lia.
Qed.

Lemma advancing_callback U i r : advancing U r → advancing U (taskCallback clock i r).
Proof.
  intros (Ha & Hs & Hf). unfold taskCallback.
  set (r1 := onTaskProgress i r).
  assert (run_tasks r1 = run_tasks r ∧ run_batchLog r1 = run_batchLog r) as [Ht Hl].
  { unfold r1, onTaskProgress. by destruct (run_tasks r !! i). }
  unfold advancing, run_tasks. rewrite tasks_updateBatchProgress.
  fold (run_tasks r1). rewrite Ht.
  assert (run_batchLog (updateBatchProgress clock r1)
          = (run_ticks r1, run_batch (updateBatchProgress clock r1))
              :: run_batchLog r) as ->.
  { rewrite <- Hl. unfold updateBatchProgress.
    by destruct (Nat.eqb _ _). }
  assert (event_count (run_ticks r1, run_batch (updateBatchProgress clock r1))
          = count_terminal (run_tasks r)) as Hc.
  { unfold event_count. cbn [snd]. rewrite tasks_updateBatchProgress.
    fold (run_tasks r1). by rewrite Ht. }
  split; [done|]. split.
  - constructor; [done|]. rewrite Hc. exact Hf.
  - constructor; [by rewrite Hc | done].
Qed.

Lemma advancing_newDate U r : advancing U r → advancing U (run_newDate clock r).2.
Proof. done. Qed.

Lemma advancing_start U r :
  advancing U r → advancing (S U) (processTask_start clock U r).
Proof.
  intros H. unfold processTask_start, convertSingleTask_start, updateProgress.
  apply advancing_callback.
  apply (advancing_upd (S U)); [|lia|lia|by intros t _ ?].
  apply advancing_callback.
  apply (advancing_upd (S U)); [|lia|lia|by intros t _ ?].
  apply (advancing_upd U); [done|lia|lia|].
  intros t Ht Hterm. destruct H as (Ha & _). rewrite (Ha U t) in Hterm; done.
Qed.

Lemma advancing_resume U i r :
  (i < U)%nat → advancing U r → advancing U (processTask_resume clock encoder i r).
Proof.
  intros Hi H. unfold processTask_resume.
  destruct (run_tasks r !! i) as [t|]; [|done].
  unfold convertSingleTask_resume, updateProgress.
  destruct (encoder i (Task.file t)); cbn [snd].
  - destruct (run_newDate clock _) as [d r1] eqn:Hd. cbn [snd].
    apply advancing_callback, advancing_callback.
    apply (advancing_upd U); [|lia|lia|by intros ? _ ?].
    apply (advancing_upd U); [|lia|lia|by intros ? _ ?].
    change r1 with (d, r1).2. rewrite <- Hd. apply advancing_newDate.
    apply (advancing_upd U); [|lia|lia|by intros ? _ ?].
    apply (advancing_upd U); [|lia|lia|by intros ? _ ?].
    apply (advancing_upd U); [|lia|lia|by intros ? _ ?].
    apply advancing_callback.
    apply (advancing_upd U); [done|lia|lia|by intros ? _ ?].
  - apply advancing_callback.
    apply (advancing_upd U); [|lia|lia|by intros ? _ ?].
    apply (advancing_upd U); [done|lia|lia|by intros ? _ ?].
Qed.

Lemma advancing_settle U n : ∀ inflight r,
  (∀ i, i ∈ inflight → (i < U)%nat) → advancing U r →
  advancing U (settle clock encoder schedule n inflight r).
Proof.
  induction n as [|n IH]; intros inflight r Hin H; simpl; [done|].
  destruct (inflight !! _) as [i|] eqn:Hi; [|done]. apply IH.
  - intros j Hj. apply Hin. by eapply list_elem_of_delete_inv.
  - apply advancing_resume; [|done]. apply Hin. by eapply list_elem_of_lookup_2.
Qed.

Lemma advancing_starts n : ∀ i r,
  advancing i r →
  advancing (i + n) (foldl (fun r i => processTask_start clock i r) r (seq i n)).
Proof.
  induction n as [|n IH]; intros i r H; simpl.
  - by rewrite Nat.add_0_r.
  - replace (i + S n)%nat with (S i + n)%nat by lia.
    apply IH. by apply advancing_start.
Qed.

Lemma advancing_loop limit fuel : ∀ i r r',
  advancing i r →
  groups_loop clock encoder schedule fuel i limit r = Some r' →
  ∃ U, advancing U r'.
Proof.
  induction fuel as [|fuel IH]; intros i r r' H; simpl;
    destruct (i <? length (run_tasks r))%nat; try congruence;
    try (intros [= <-]; eauto).
  unfold processGroup, slice_positions.
  set (n := (Nat.min (i + limit) (length (run_tasks r)) - i)%nat).
  apply (IH (i + limit)%nat).
  apply (advancing_weaken (i + n)); [lia|].
  apply advancing_settle; [|by apply advancing_starts].
  intros j Hj. apply elem_of_seq in Hj. lia.
Qed.

End Advancing.

Lemma StronglySorted_refine {A} (R R' : relation A) (P : A → Prop) l :
  (∀ x y, P x → P y → R x y → R' x y) →
  Forall P l → StronglySorted R l → StronglySorted R' l.
Proof.
  intros HR HP Hs. induction Hs as [|x l Hs IH Hall]; [constructor|].
  apply Forall_cons in HP as [Hx HP]. constructor; [by apply IH|].
  clear IH Hs. induction l as [|y l IH]; [constructor|].
  apply Forall_cons in Hall as [Hxy Hall]. apply Forall_cons in HP as [Hy HP].
  constructor; [by apply HR | by apply IH].
Qed.

(** X21: on a non-empty batch none of whose tasks is terminal at the
    start (as [createBatchTask] returns it), the aggregate progress
    handed to [onBatchProgress] never goes back: of any two batches
    handed over, the later has at least the progress of the earlier. *)
Theorem X21_progress_never_goes_back
    (clock : nat -> Z) (encoder : nat -> File -> EncodeOutcome)
    (schedule : list nat -> nat) (hardwareConcurrency : option nat)
    (b : Batch.t) (k : nat) :
  Batch.tasks b ≠ [] →
  Forall (fun t => is_terminal (Task.status t) = false) (Batch.tasks b) →
  ∃ r, convertBatchTask clock encoder schedule hardwareConcurrency b k = Some r
       ∧ StronglySorted (fun later earlier => progress_le earlier.2 later.2)
           (run_batchLog r).
Proof.
  intros Hne Hfresh.
  destruct (convertBatchTask_returns clock encoder schedule hardwareConcurrency
              b k Hne) as (r' & Hloop & Hrun & _ & _).
  exists (updateBatchProgress clock r'). split; [done|].
  set (n := length (Batch.tasks b)).
  assert (0 < n)%nat as Hn by (unfold n; destruct (Batch.tasks b); [done | simpl; lia]).
  set (r0 := upd_batch (Batch.set_status PROCESSING)
               {| run_batch := b; run_ticks := k;
                  run_taskLog := []; run_batchLog := [] |}) in *.
  assert (advancing 0 r0) as H0.
  { split; [|split; constructor]. intros j t _ Hj.
    by eapply (proj1 (Forall_lookup _ _) Hfresh). }
  destruct (advancing_loop clock encoder schedule _ _ _ _ _ H0 Hloop) as [U HU].
  set (P := fun ev : nat * Batch.t =>
              in_step clock ev ∧ length (Batch.tasks ev.2) = n).
  set (I := fun r : Run => length (run_tasks r) = n ∧ Forall P (run_batchLog r)).
  assert (∀ r, I r → I (updateBatchProgress clock r)) as I_update.
  { intros r [Hl Hlog].
    destruct (updateBatchProgress_log clock r) as [Hl' Ha]; [lia|].
    unfold I, run_tasks. rewrite tasks_updateBatchProgress.
    split; [done|]. rewrite Hl'. constructor; [|done].
    split; [done|]. cbn [snd]. by rewrite tasks_updateBatchProgress. }
  assert (I r') as Hr'.
  { eapply (groups_loop_keeps clock encoder schedule I); [| | | | exact Hloop].
    - intros i f r [Hl Hlog]. unfold I, run_tasks.
      by rewrite tasks_upd_task, length_alter.
    - intros i r HI. unfold taskCallback. apply I_update.
      unfold onTaskProgress. by destruct (run_tasks r !! i).
    - intros r HI. exact HI.
    - split; [done | constructor]. }
  apply (advancing_callback clock U 0%nat) in HU.
  assert (run_batchLog (taskCallback clock 0 r')
          = run_batchLog (updateBatchProgress clock r')) as Hsame.
  { unfold taskCallback, onTaskProgress, updateBatchProgress.
    destruct (run_tasks r' !! 0%nat); by destruct (Nat.eqb _ _). }
  destruct HU as (_ & Hsorted & _). rewrite Hsame in Hsorted.
  destruct (I_update r' Hr') as [_ Hagg].
  eapply StronglySorted_refine; [|exact Hagg|exact Hsorted].
  intros later earlier [[Hp1 _] Hl1] [[Hp2 _] Hl2] Hle.
  exists (js_percent (event_count earlier) n), (js_percent (event_count later) n).
  rewrite <- Hl1 at 2. rewrite <- Hl2 at 1.
  split; [exact Hp2|]. split; [exact Hp1|]. by apply percent_mono.
Qed.

Lemma X21_progress_never_goes_back_witness :
  ∃ r, convertBatchTask clock0 encoder0 schedule0 (Some 2%nat) three_batch 5 = Some r
       ∧ StronglySorted (fun later earlier => progress_le earlier.2 later.2)
           (run_batchLog r).
Proof.
  apply (X21_progress_never_goes_back clock0 encoder0 schedule0 (Some 2%nat)
           three_batch 5).
  - simpl. discriminate.
  - repeat constructor.
Defined.

